(** * Watermark restoration engine: a shallow embedding and its properties

    The repository contains two implementations of the same inverse
    alpha-blend restoration:

    - [WatermarkEngine] (lib/watermark.js, used by the React application),
      which works on a canvas through [getImageData] / [putImageData];
    - [WatermarkProcessor] (the stand-alone front end), which works in place
      on an [ImageData] buffer.

    Numbers.  JavaScript numbers are modelled by exact rationals [Q]: the
    model covers finite numbers and exact arithmetic, so [NaN] and infinite
    arguments and the binary rounding of intermediate results are outside
    it.  The one place where the code can meet [undefined] / [NaN] on
    finite inputs, a read outside a typed array, is modelled with [option]
    ([None] is [undefined], which arithmetic turns into [NaN]).  Channel
    values live in a [Uint8ClampedArray] and are integers in [0, 255]. *)

From Stdlib Require Import ZArith QArith Qround Qabs Qminmax Lqa Lia List String Ascii Bool.
From stdpp Require Import base list list_numbers.

Local Open Scope Z_scope.

(** ** Numbers and typed arrays *)

Module JS.

(** How a call completes: normally with a value, or by throwing. *)
Inductive completion (A : Type) : Type :=
| Return (v : A)
| Throw (message : string).
Arguments Return {A} v.
Arguments Throw {A} message.

(** The comparison [x < y] on finite numbers. *)
Definition lt (x y : Q) : bool := negb (Qle_bool y x).

(** [Math.round]: nearest integer, ties towards +infinity. *)
Definition Math_round (x : Q) : Z := Qfloor (x + (1 # 2))%Q.

(** [Math.min] and [Math.max] on finite numbers. *)
Definition Math_min (x y : Q) : Q := if Qle_bool x y then x else y.
Definition Math_max (x y : Q) : Q := if Qle_bool x y then y else x.

(** Conversion performed by a store into a [Uint8ClampedArray]
    (ECMAScript ToUint8Clamp): clamp to [0, 255], then round to nearest
    with ties to even.  [None] stands for [NaN], which is stored as 0. *)
Definition ToUint8Clamp (v : option Q) : Z :=
  match v with
  | None => 0
  | Some x =>
      if Qle_bool x 0 then 0
      else if Qle_bool 255 x then 255
      else
        let f := Qfloor x in
        if lt (inject_Z f + (1 # 2)) x then f + 1
        else if lt x (inject_Z f + (1 # 2)) then f
        else if Z.even f then f else f + 1
  end.

(** A [Uint8ClampedArray].  [dropped] is ghost state: the indices of the
    stores that fell outside the array, which the language ignores.  It
    lets "no store falls outside the buffer" be stated about a run. *)
Record Uint8ClampedArray := mkU8 {
  elems : list Z;
  dropped : list Z
}.

(** A typed-array read [a[i]]: [undefined] outside the array. *)
Definition get {A} (a : list A) (i : Z) : option A :=
  if i <? 0 then None else a !! Z.to_nat i.

(** A store [a[i] = v]. *)
Definition set (a : Uint8ClampedArray) (i : Z) (v : option Q) : Uint8ClampedArray :=
  if (0 <=? i) && (i <? Z.of_nat (length (elems a)))
  then {| elems := <[Z.to_nat i := ToUint8Clamp v]> (elems a); dropped := dropped a |}
  else {| elems := elems a; dropped := i :: dropped a |}.

Record ImageData := mkImageData {
  width : Z;
  height : Z;
  data : Uint8ClampedArray
}.

(** A canvas and its bitmap: RGBA, row-major, four entries per pixel. *)
Record Canvas := mkCanvas {
  c_width : Z;
  c_height : Z;
  c_pixels : list Z
}.

(** [ctx.getImageData(sx, sy, sw, sh)]: a fresh copy of the rectangle;
    pixels outside the canvas read as transparent black. *)
Definition getImageData (c : Canvas) (sx sy sw sh : Z) : ImageData :=
  {| width := sw;
     height := sh;
     data :=
       {| elems :=
            (fun k =>
               let p := k / 4 in
               let ch := k mod 4 in
               let px := sx + p mod sw in
               let py := sy + p / sw in
               if (0 <=? px) && (px <? c_width c) && (0 <=? py) && (py <? c_height c)
               then default 0 (get (c_pixels c) ((py * c_width c + px) * 4 + ch))
               else 0) <$> seqZ 0 (4 * sw * sh);
          dropped := [] |} |}.

(** [ctx.putImageData(imageData, dx, dy)]: the rectangle is copied back;
    the part of it outside the canvas is ignored. *)
Definition putImageData (c : Canvas) (img : ImageData) (dx dy : Z) : Canvas :=
  {| c_width := c_width c;
     c_height := c_height c;
     c_pixels :=
       imap
         (fun n old =>
            let k := Z.of_nat n in
            let p := k / 4 in
            let ch := k mod 4 in
            let px := p mod c_width c in
            let py := p / c_width c in
            if (dx <=? px) && (px <? dx + width img)
               && (dy <=? py) && (py <? dy + height img)
            then default old
                   (get (elems (data img)) (((py - dy) * width img + (px - dx)) * 4 + ch))
            else old)
         (c_pixels c) |}.

End JS.

Import JS.

(** ** Constants and data shared by both implementations *)

Definition MAX_ALPHA : Q := 99 # 100.
Definition ALPHA_THRESHOLD : Q := 2 # 1000.

Inductive WATERMARK_SIZE := SMALL | LARGE.

Record AlphaMap := mkAlphaMap {
  am_width : Z;
  am_height : Z;
  am_data : list Q
}.

(** A decoded reference bitmap, as [drawImage] + [getImageData] give it. *)
Record Image := mkImage {
  img_width : Z;
  img_height : Z;
  img_data : list Z
}.

(** The loop of [calculateAlphaMap] / [loadAlphaMap]:
    [alpha = max(R, G, B) / 255.0] for each pixel. *)
Fixpoint alphaOfPixels (d : list Z) : list Q :=
  match d with
  | r :: g :: b :: _ :: rest =>
      (inject_Z (Z.max r (Z.max g b)) / 255)%Q :: alphaOfPixels rest
  | _ => []
  end.

Definition calculateAlphaMap (img : Image) : AlphaMap :=
  {| am_width := img_width img;
     am_height := img_height img;
     am_data := alphaOfPixels (img_data img) |}.


(** Where bitmap entry [k] of an image of width [W] lies relative to the
    square of side [s] whose top-left pixel is [(x0, y0)]: the index,
    row-major in the square, of the pixel that holds [k], if any. *)
Definition roiEntry (W x0 y0 s k : Z) : option Z :=
  let p := k / 4 in
  let px := p mod W in
  let py := p / W in
  if (x0 <=? px) && (px <? x0 + s) && (y0 <=? py) && (py <? y0 + s)
  then Some ((py - y0) * s + (px - x0))
  else None.

(** [Math.max(0, Math.min(255, x))]. *)
Definition clamp255 (x : Q) : Q := Math_max 0 (Math_min 255 x).

(** The inverse-blend formula, on exact numbers. *)
Definition unblend (watermarked : Z) (alpha logo : Q) : Q :=
  ((inject_Z watermarked - alpha * logo) / (1 - alpha))%Q.

(** [v] is an integer nearest to [x]. *)
Definition nearest (v : Z) (x : Q) : Prop :=
  (x - (1 # 2) <= inject_Z v /\ inject_Z v <= x + (1 # 2))%Q.

(** Modelled from the spec: the synthetic watermark of the round-trip
    property, [watermarked = original*(1-alpha) + alpha*255], stored in an
    8-bit channel (rounded to the nearest integer). *)
Definition composite (original : Z) (alpha : Q) : Z :=
  Math_round (inject_Z original * (1 - alpha) + alpha * 255)%Q.

(** The rounding of the watermarked value, amplified by the division. *)
Definition amplified (alpha : Q) : Q := ((1 # 2) / (1 - alpha))%Q.

(** The error the round trip can leave in a channel. *)
Definition tolerance (alpha : Q) : Q := ((1 # 2) + amplified alpha)%Q.

(** The buffer has [n] entries and the stores dropped so far are [dr]. *)
Definition intact (n : nat) (dr : list Z) (d : Uint8ClampedArray) : Prop :=
  length (elems d) = n /\ dropped d = dr.

(** ** WatermarkEngine *)

Module Engine.

Record Config := mkConfig {
  margin_right : Z;
  margin_bottom : Z;
  logo_size : Z;
  size : Z
}.

Record t := mkEngine {
  alphaMaps_small : option AlphaMap;
  alphaMaps_large : option AlphaMap;
  ready : bool;
  logoValue : Q
}.

Definition constructor : t :=
  {| alphaMaps_small := None; alphaMaps_large := None;
     ready := false; logoValue := 255 |}.

(** [init]: the two arguments are the outcomes of the two [loadImage]
    promises ([None] when the image fails to load, which rejects
    [Promise.all] before any field is assigned). *)
Definition init (e : t) (smallImg largeImg : option Image) : t * completion unit :=
  match smallImg, largeImg with
  | Some s, Some l =>
      ({| alphaMaps_small := Some (calculateAlphaMap s);
          alphaMaps_large := Some (calculateAlphaMap l);
          ready := true;
          logoValue := logoValue e |}, Return tt)
  | _, _ => (e, Throw "image failed to load")
  end.

Definition getWatermarkConfigLarge : Config :=
  {| margin_right := 64; margin_bottom := 64; logo_size := 96; size := 96 |}.

Definition getWatermarkConfigSmall : Config :=
  {| margin_right := 32; margin_bottom := 32; logo_size := 48; size := 48 |}.

Definition getWatermarkConfig (width height : Z) : Config :=
  if (width >? 1024) && (height >? 1024)
  then getWatermarkConfigLarge
  else getWatermarkConfigSmall.

(** The size decision at the start of [process]: [forceSize] is [null]
    (automatic) or one of the [WATERMARK_SIZE] values. *)
Definition selectConfig (width height : Z) (forceSize : option WATERMARK_SIZE)
  : Config :=
  match forceSize with
  | Some fs =>
      match fs with
      | LARGE => getWatermarkConfigLarge
      | SMALL => getWatermarkConfigSmall
      end
  | None => getWatermarkConfig width height
  end.

(** The alpha substituted into the formula: scaled by intensity, clamped. *)
Definition effectiveAlpha (a intensity : Q) : Q :=
  let rawAlpha := (a * intensity)%Q in
  Math_min rawAlpha MAX_ALPHA.

(** [Math.max(0, Math.min(255, (data[idx] - alphaM) / oneMinusAlpha))];
    [w] is the value read at [idx]. *)
Definition restored (alphaM oneMinusAlpha : Q) (w : option Z) : option Q :=
  (fun w => Math_max 0 (Math_min 255 ((inject_Z w - alphaM) / oneMinusAlpha)))%Q <$> w.

(** One iteration of the loop of [process], for index [i] of the alpha map
    whose entry is [a]. *)
Definition step (intensity logoValue : Q) (d : Uint8ClampedArray) (ia : Z * Q)
  : Uint8ClampedArray :=
  let i := ia.1 in
  let alpha := effectiveAlpha ia.2 intensity in
  if lt alpha ALPHA_THRESHOLD then d
  else
    let alphaM := (alpha * logoValue)%Q in
    let oneMinusAlpha := (1 - alpha)%Q in
    let idx := i * 4 in
    let d := set d idx (restored alphaM oneMinusAlpha (get (elems d) idx)) in
    let d := set d (idx + 1) (restored alphaM oneMinusAlpha (get (elems d) (idx + 1))) in
    let d := set d (idx + 2) (restored alphaM oneMinusAlpha (get (elems d) (idx + 2))) in
    d.

(** [for (let i = 0; i < alphaMap.data.length; i++)], entered at index [i]
    with the entries [alphas] still to visit. *)
Fixpoint loop (intensity logoValue : Q) (alphas : list Q) (i : Z)
  (d : Uint8ClampedArray) : Uint8ClampedArray :=
  match alphas with
  | [] => d
  | a :: rest =>
      loop intensity logoValue rest (i + 1) (step intensity logoValue d (i, a))
  end.

(** [process(canvas, forceSize, intensity)].  The canvas is mutated in
    place: the result is the canvas after the call and how the call
    completed. *)
Definition process (e : t) (canvas : Canvas) (forceSize : option WATERMARK_SIZE)
  (intensity : Q) : Canvas * completion unit :=
  if negb (ready e) then (canvas, Throw "Watermark engine not initialized")
  else
    let width := c_width canvas in
    let height := c_height canvas in
    let config := selectConfig width height forceSize in
    let alphaMap :=
      if size config =? 96 then alphaMaps_large e else alphaMaps_small e in
    let roiX := width - margin_right config - logo_size config in
    let roiY := height - margin_bottom config - logo_size config in
    if (roiX <? 0) || (roiY <? 0) then (canvas, Return tt)
    else
      let imageData :=
        getImageData canvas roiX roiY (logo_size config) (logo_size config) in
      match alphaMap with
      | None => (canvas, Throw "TypeError: alphaMap is null")
      | Some alphaMap =>
          let d := loop intensity (logoValue e) (am_data alphaMap) 0 (data imageData) in
          (putImageData canvas
             {| JS.width := JS.width imageData; JS.height := JS.height imageData;
                data := d |}
             roiX roiY,
           Return tt)
      end.

(** The region of interest and the alpha map, as [process] computes them. *)
Definition roiX (c : Canvas) (config : Config) : Z :=
  c_width c - margin_right config - logo_size config.
Definition roiY (c : Canvas) (config : Config) : Z :=
  c_height c - margin_bottom config - logo_size config.
Definition alphaMapFor (e : t) (config : Config) : option AlphaMap :=
  if size config =? 96 then alphaMaps_large e else alphaMaps_small e.

(** The value [process] leaves in a colour channel that held [w], under an
    alpha-map entry [a]. *)
Definition channelOut (intensity logoValue a : Q) (w : Z) : Z :=
  let alpha := effectiveAlpha a intensity in
  if lt alpha ALPHA_THRESHOLD then w
  else ToUint8Clamp (restored (alpha * logoValue) (1 - alpha) (Some w)).

End Engine.

(** ** WatermarkProcessor *)

Module Processor.

Record Config := mkConfig {
  size : Z;
  margin : Z;
  x : Z;
  y : Z
}.

Record t := mkProcessor {
  alphaMap48 : option AlphaMap;
  alphaMap96 : option AlphaMap;
  isReady : bool
}.

Definition constructor : t :=
  {| alphaMap48 := None; alphaMap96 := None; isReady := false |}.

(** [init], started by the constructor: the arguments are the outcomes of
    the two [loadAlphaMap] calls, awaited in turn.  A failure is caught and
    logged, never rethrown. *)
Definition init (p : t) (img48 img96 : option Image) : t :=
  match img48 with
  | None => p
  | Some i48 =>
      let p := {| alphaMap48 := Some (calculateAlphaMap i48);
                  alphaMap96 := alphaMap96 p; isReady := isReady p |} in
      match img96 with
      | None => p
      | Some i96 =>
          {| alphaMap48 := alphaMap48 p;
             alphaMap96 := Some (calculateAlphaMap i96);
             isReady := true |}
      end
  end.

Definition getWatermarkConfig (width height : Z) (forceMode : string) : Config :=
  let size :=
    if String.eqb forceMode "48" then 48
    else if String.eqb forceMode "96" then 96
    else if (width >? 1024) && (height >? 1024) then 96 else 48 in
  let margin := if size =? 96 then 64 else 32 in
  {| size := size; margin := margin;
     x := width - margin - size; y := height - margin - size |}.

(** [Math.min(alpha, MAX_ALPHA)]. *)
Definition safeAlpha (alpha : Q) : Q := Math_min alpha MAX_ALPHA.

(** [Math.max(0, Math.min(255, Math.round(original)))] with
    [original = (watermarked - safeAlpha * logoValue) / oneMinusAlpha];
    [alpha] is the entry read from the alpha map and [w] the channel value
    read from the image: when either read is [undefined] the result is
    [NaN]. *)
Definition restored (logoValue : Q) (alpha : option Q) (w : option Z) : option Q :=
  match alpha, w with
  | Some alpha, Some watermarked =>
      let safeAlpha := safeAlpha alpha in
      let oneMinusAlpha := (1 - safeAlpha)%Q in
      let original := ((inject_Z watermarked - safeAlpha * logoValue) / oneMinusAlpha)%Q in
      Some (Math_max 0 (Math_min 255 (inject_Z (Math_round original))))
  | _, _ => None
  end.

(** [for (let c = 0; c < 3; c++)]: one channel. *)
Definition channel (logoValue : Q) (alpha : option Q) (pixelIndex : Z)
  (d : Uint8ClampedArray) (c : Z) : Uint8ClampedArray :=
  set d (pixelIndex + c) (restored logoValue alpha (get (elems d) (pixelIndex + c))).

(** The body of the two nested loops of [process], at [(row, col)]. *)
Definition step (width height : Z) (config : Config) (alphaMap : AlphaMap)
  (logoValue : Q) (d : Uint8ClampedArray) (rc : Z * Z) : Uint8ClampedArray :=
  let row := rc.1 in
  let col := rc.2 in
  let mapSize := size config in
  let imgX := x config + col in
  let imgY := y config + row in
  if (imgX <? 0) || (imgX >=? width) || (imgY <? 0) || (imgY >=? height) then d
  else
    let alpha := get (am_data alphaMap) (row * mapSize + col) in
    if match alpha with Some a => lt a ALPHA_THRESHOLD | None => false end then d
    else
      let pixelIndex := (imgY * width + imgX) * 4 in
      fold_left (channel logoValue alpha pixelIndex) (seqZ 0 3) d.

(** [for (let row ...) for (let col ...)]. *)
Definition loop (width height : Z) (config : Config) (alphaMap : AlphaMap)
  (logoValue : Q) (d : Uint8ClampedArray) : Uint8ClampedArray :=
  let mapSize := size config in
  fold_left
    (fun d row =>
       fold_left
         (fun d col => step width height config alphaMap logoValue d (row, col))
         (seqZ 0 mapSize) d)
    (seqZ 0 mapSize) d.

(** [process(imageData, forceMode, logoValue)]: the buffer of [imageData]
    is mutated in place and [imageData] is returned. *)
Definition process (p : t) (imageData : ImageData) (forceMode : string)
  (logoValue : Q) : completion ImageData :=
  let width := JS.width imageData in
  let height := JS.height imageData in
  let config := getWatermarkConfig width height forceMode in
  let alphaMap := if size config =? 96 then alphaMap96 p else alphaMap48 p in
  match alphaMap with
  | None => Return imageData
  | Some alphaMap =>
      Return {| JS.width := width; JS.height := height;
                data := loop width height config alphaMap logoValue (data imageData) |}
  end.

(** The alpha map [process] selects. *)
Definition alphaMapFor (p : t) (config : Config) : option AlphaMap :=
  if size config =? 96 then alphaMap96 p else alphaMap48 p.

(** The invariant of an [ImageData]: four entries per pixel. *)
Definition wellFormed (img : ImageData) : Prop :=
  0 <= width img /\ 0 <= height img /\
  Z.of_nat (length (elems (data img))) = 4 * width img * height img.

(** The value [process] leaves in a colour channel that held [w], when the
    alpha-map read gave [alpha]. *)
Definition channelOut (logoValue : Q) (alpha : option Q) (w : Z) : Z :=
  if match alpha with Some a => lt a ALPHA_THRESHOLD | None => false end then w
  else ToUint8Clamp (restored logoValue alpha (Some w)).

(** The bounds check of the loop body passes at [(row, col)] and [j] is one
    of the three colour entries of the pixel it addresses. *)
Definition hit (width height : Z) (config : Config) (rc : Z * Z) (j : Z) : bool :=
  let imgX := x config + rc.2 in
  let imgY := y config + rc.1 in
  let pixelIndex := (imgY * width + imgX) * 4 in
  negb ((imgX <? 0) || (imgX >=? width) || (imgY <? 0) || (imgY >=? height))
  && (pixelIndex <=? j) && (j <? pixelIndex + 3).

(** The loop position whose body addresses entry [j], if any. *)
Definition owner (width height : Z) (config : Config) (j : Z) : option (Z * Z) :=
  let p := j / 4 in
  let px := p mod width in
  let py := p / width in
  if (0 <? width) && (0 <=? py) && (py <? height) && (j mod 4 <? 3)
  then Some (py - y config, px - x config)
  else None.

End Processor.

(** ** Sample inputs

    Small concrete engines and images on which the statements below are
    instantiated. *)

Module Sample.

(** Alpha maps of the two supported sizes, with one opacity everywhere. *)
Definition alpha48 (a : Q) : AlphaMap :=
  {| am_width := 48; am_height := 48; am_data := repeat a (Z.to_nat 2304) |}.
Definition alpha96 (a : Q) : AlphaMap :=
  {| am_width := 96; am_height := 96; am_data := repeat a (Z.to_nat 9216) |}.

(** An initialized engine. *)
Definition engine (a : Q) : Engine.t :=
  {| Engine.alphaMaps_small := Some (alpha48 a);
     Engine.alphaMaps_large := Some (alpha96 a);
     Engine.ready := true;
     Engine.logoValue := 255 |}.

(** A processor whose two alpha maps are loaded. *)
Definition processor (a : Q) : Processor.t :=
  {| Processor.alphaMap48 := Some (alpha48 a);
     Processor.alphaMap96 := Some (alpha96 a);
     Processor.isReady := true |}.

(** A canvas and an image of one colour, every channel equal to [v]. *)
Definition canvas (w h v : Z) : Canvas :=
  {| c_width := w; c_height := h; c_pixels := repeat v (Z.to_nat (4 * w * h)) |}.
Definition image (w h v : Z) : ImageData :=
  {| width := w; height := h;
     data := {| elems := repeat v (Z.to_nat (4 * w * h)); dropped := [] |} |}.

End Sample.

(** ** Correspondence of the two front ends *)

(** The [forceMode] of WatermarkProcessor that asks for what a [forceSize]
    of WatermarkEngine asks for. *)
Definition forceModeOf (forceSize : option WATERMARK_SIZE) : string :=
  match forceSize with
  | None => "auto"
  | Some SMALL => "48"
  | Some LARGE => "96"
  end.

(** ** File names offered for the restored image *)

Module FileName.

(** [c] is neither ['/'] nor ['.']: the class [[^/.]] of the regular
    expression. *)
Definition plain (c : ascii) : bool :=
  negb (Ascii.eqb c "/") && negb (Ascii.eqb c ".").

(** [s] matches [[^/.]+$]: not empty, of plain characters only. *)
Fixpoint isExtension (s : string) : bool :=
  match s with
  | EmptyString => false
  | String c EmptyString => plain c
  | String c rest => plain c && isExtension rest
  end.

(** [name.replace(/\.[^/.]+$/, '')] (the React application): the leftmost
    ['.'] followed by an extension up to the end is cut off with it. *)
Fixpoint stripExtension (name : string) : string :=
  match name with
  | EmptyString => EmptyString
  | String c rest =>
      if Ascii.eqb c "." && isExtension rest then EmptyString
      else String c (stripExtension rest)
  end.

(** [name.split('.')[0]] (the stand-alone front end): what precedes the
    first ['.']. *)
Fixpoint beforeFirstDot (name : string) : string :=
  match name with
  | EmptyString => EmptyString
  | String c rest =>
      if Ascii.eqb c "." then EmptyString else String c (beforeFirstDot rest)
  end.

(** [`processed_${...}.png`] in the two front ends. *)
Definition saveName (name : string) : string :=
  String.append "processed_" (String.append (stripExtension name) ".png").
Definition downloadName (name : string) : string :=
  String.append "processed_" (String.append (beforeFirstDot name) ".png").

(** [s] contains no ['.']. *)
Fixpoint dotless (s : string) : bool :=
  match s with
  | EmptyString => true
  | String c rest => negb (Ascii.eqb c ".") && dotless rest
  end.

End FileName.

(** * Properties *)

(** ** Typed arrays *)

Lemma lt_spec (x y : Q) : lt x y = true <-> (x < y)%Q.
Proof.
  unfold lt. rewrite negb_true_iff, <- not_true_iff_false, Qle_bool_iff.
  split; [apply Qnot_le_lt | apply Qlt_not_le].
Qed.

Lemma lt_false (x y : Q) : lt x y = false <-> (y <= x)%Q.
Proof.
  unfold lt. rewrite negb_false_iff. apply Qle_bool_iff.
Qed.

Lemma get_range {A} (a : list A) (i : Z) (v : A) :
  get a i = Some v -> 0 <= i < Z.of_nat (length a).
Proof.
  unfold get. destruct (Z.ltb_spec i 0); [discriminate|].
  intros H'. apply lookup_lt_Some in H'. lia.
Qed.

Lemma get_None {A} (a : list A) (i : Z) :
  get a i = None <-> i < 0 \/ Z.of_nat (length a) <= i.
Proof.
  unfold get. destruct (Z.ltb_spec i 0).
  - split; auto.
  - rewrite lookup_ge_None. lia.
Qed.

Lemma get_of_nat {A} (a : list A) (n : nat) : get a (Z.of_nat n) = a !! n.
Proof.
  unfold get. destruct (Z.ltb_spec (Z.of_nat n) 0); [lia|]. by rewrite Nat2Z.id.
Qed.

Lemma length_set a i v : length (elems (set a i v)) = length (elems a).
Proof.
  unfold set. destruct (_ && _); simpl; [apply length_insert | done].
Qed.

Lemma get_set a i v j :
  get (elems (set a i v)) j =
  if j =? i then (fun _ => ToUint8Clamp v) <$> get (elems a) j else get (elems a) j.
Proof.
  unfold set.
  destruct (Z.eqb_spec j i) as [->|Hne].
  - destruct (Z.leb_spec 0 i); destruct (Z.ltb_spec i (Z.of_nat (length (elems a)))); simpl.
    + unfold get. destruct (Z.ltb_spec i 0); [lia|].
      rewrite list_lookup_insert_eq by lia.
      destruct (lookup_lt_is_Some_2 (elems a) (Z.to_nat i)) as [x ->]; [lia|done].
    + assert (get (elems a) i = None) as -> by (apply get_None; lia). done.
    + assert (get (elems a) i = None) as -> by (apply get_None; lia). done.
    + assert (get (elems a) i = None) as -> by (apply get_None; lia). done.
  - destruct (Z.leb_spec 0 i); destruct (Z.ltb_spec i (Z.of_nat (length (elems a))));
      simpl; try done.
    unfold get. destruct (Z.ltb_spec j 0); [done|].
    apply list_lookup_insert_ne. lia.
Qed.

Lemma get_cons_succ {A} (x : A) (l : list A) (k : Z) :
  0 <= k -> get (x :: l) (k + 1) = get l k.
Proof.
  intros Hk. unfold get.
  destruct (Z.ltb_spec (k + 1) 0); [lia|]. destruct (Z.ltb_spec k 0); [lia|].
  replace (Z.to_nat (k + 1)) with (S (Z.to_nat k)) by lia. done.
Qed.

(** ** Arithmetic of the restoration formula *)

Lemma Math_min_spec (x y : Q) :
  ((x <= y /\ Math_min x y = x) \/ (y < x /\ Math_min x y = y))%Q.
Proof.
  unfold Math_min. destruct (Qle_bool x y) eqn:E.
  - left. split; [by apply Qle_bool_iff | done].
  - right. split; [|done]. apply Qnot_le_lt. intros H%Qle_bool_iff. congruence.
Qed.

Lemma Math_max_spec (x y : Q) :
  ((x <= y /\ Math_max x y = y) \/ (y < x /\ Math_max x y = x))%Q.
Proof.
  unfold Math_max. destruct (Qle_bool x y) eqn:E.
  - left. split; [by apply Qle_bool_iff | done].
  - right. split; [|done]. apply Qnot_le_lt. intros H%Qle_bool_iff. congruence.
Qed.

Lemma clamp255_range (x : Q) : (0 <= clamp255 x <= 255)%Q.
Proof.
  unfold clamp255.
  destruct (Math_min_spec 255 x) as [[? ->]|[? ->]];
    destruct (Math_max_spec 0 255) as [[? E]|[? E]];
    destruct (Math_max_spec 0 x) as [[? E']|[? E']];
    rewrite ?E, ?E'; lra.
Qed.

(** Clamping moves a value no further from a point of [0, 255]. *)
Lemma clamp255_closer (x o lo hi : Q) :
  (0 <= o <= 255 -> lo <= x - o <= hi -> lo <= 0 <= hi ->
   lo <= clamp255 x - o <= hi)%Q.
Proof.
  unfold clamp255. intros Ho Hx Hl.
  destruct (Math_min_spec 255 x) as [[? ->]|[? ->]].
  - destruct (Math_max_spec 0 255) as [[? ->]|[? ->]]; lra.
  - destruct (Math_max_spec 0 x) as [[? ->]|[? ->]]; lra.
Qed.

Lemma clamp255_id (x : Q) : (0 <= x <= 255)%Q -> (clamp255 x == x)%Q.
Proof.
  unfold clamp255. intros Hx.
  destruct (Math_min_spec 255 x) as [[? ->]|[? ->]].
  - destruct (Math_max_spec 0 255) as [[? ->]|[? ->]]; lra.
  - destruct (Math_max_spec 0 x) as [[? ->]|[? ->]]; lra.
Qed.

Lemma Math_round_nearest (x : Q) : nearest (Math_round x) x.
Proof.
  unfold nearest, Math_round.
  pose proof (Qfloor_le (x + (1 # 2))). pose proof (Qlt_floor (x + (1 # 2))) as Hlt.
  rewrite inject_Z_plus in Hlt. change (inject_Z 1) with 1%Q in Hlt. lra.
Qed.

(** An integer strictly between [b - 1] and [b + 1] is [b]; more
    generally integer bounds follow from rational ones. *)
Lemma Zle_of_Qlt_succ (a b : Z) : (inject_Z a < inject_Z b + 1)%Q -> a <= b.
Proof.
  intros H. apply Z.lt_succ_r. rewrite Zlt_Qlt. unfold Z.succ.
  rewrite inject_Z_plus. exact H.
Qed.

Lemma nearest_range (v : Z) (x : Q) :
  nearest v x -> (0 <= x <= 255)%Q -> 0 <= v <= 255.
Proof.
  intros [Hl Hu] Hx. split; apply Zle_of_Qlt_succ.
  - change (inject_Z 0) with 0%Q. lra.
  - change (inject_Z 255) with 255%Q. lra.
Qed.

Lemma nearest_integer (v w : Z) : nearest v (inject_Z w) -> v = w.
Proof.
  intros [Hl Hu]. cbv beta in Hl, Hu.
  apply Z.le_antisymm; apply Zle_of_Qlt_succ; lra.
Qed.

Lemma ToUint8Clamp_nearest (x : Q) :
  (0 <= x <= 255)%Q -> nearest (ToUint8Clamp (Some x)) x.
Proof.
  intros Hx. unfold ToUint8Clamp, nearest.
  destruct (Qle_bool x 0) eqn:E0.
  { apply Qle_bool_iff in E0. change (inject_Z 0) with 0%Q. lra. }
  destruct (Qle_bool 255 x) eqn:E1.
  { apply Qle_bool_iff in E1. change (inject_Z 255) with 255%Q. lra. }
  pose proof (Qfloor_le x) as Hf. pose proof (Qlt_floor x) as Hc.
  rewrite inject_Z_plus in Hc. change (inject_Z 1) with 1%Q in Hc.
  destruct (lt (inject_Z (Qfloor x) + (1 # 2)) x) eqn:L1.
  { apply lt_spec in L1. rewrite inject_Z_plus. change (inject_Z 1) with 1%Q. lra. }
  apply lt_false in L1.
  destruct (lt x (inject_Z (Qfloor x) + (1 # 2))) eqn:L2.
  { apply lt_spec in L2. lra. }
  apply lt_false in L2.
  destruct (Z.even (Qfloor x)); [lra|].
  rewrite inject_Z_plus. change (inject_Z 1) with 1%Q. lra.
Qed.

Lemma ToUint8Clamp_integer (v : Z) :
  0 <= v <= 255 -> ToUint8Clamp (Some (inject_Z v)) = v.
Proof.
  intros Hv. apply nearest_integer, ToUint8Clamp_nearest.
  rewrite Zle_Qle, Zle_Qle in Hv. exact Hv.
Qed.

Lemma ToUint8Clamp_range (v : option Q) : 0 <= ToUint8Clamp v <= 255.
Proof.
  destruct v as [x|]; [|simpl; lia].
  destruct (Qlt_le_dec x 0) as [Hn|Hp].
  { unfold ToUint8Clamp. rewrite (proj2 (Qle_bool_iff x 0)) by lra. lia. }
  destruct (Qlt_le_dec 255 x) as [Hb|Hs].
  { unfold ToUint8Clamp. destruct (Qle_bool x 0); [lia|].
    rewrite (proj2 (Qle_bool_iff 255 x)) by lra. lia. }
  eapply nearest_range; [apply ToUint8Clamp_nearest|]; lra.
Qed.

Lemma restore_error (x wq a : Q) :
  (0 <= a -> a < 1 ->
   x * (1 - a) + a * 255 - (1 # 2) <= wq ->
   wq <= x * (1 - a) + a * 255 + (1 # 2) ->
   - amplified a <= (wq - a * 255) / (1 - a) - x <= amplified a)%Q.
Proof.
  intros Ha0 Ha1 Hl Hu. unfold amplified.
  set (d := (1 - a)%Q) in *.
  assert (Hd : (0 < d)%Q) by (subst d; lra).
  assert (Hi : (0 <= / d)%Q) by (apply Qlt_le_weak, Qinv_lt_0_compat, Hd).
  assert (E : ((wq - a * 255) / d - x == (wq - a * 255 - x * d) * / d)%Q).
  { field. lra. }
  rewrite E. unfold Qdiv. split.
  - assert (E' : (- ((1 # 2) * / d) == (- (1 # 2)) * / d)%Q) by ring.
    rewrite E'.
    apply Qmult_le_compat_r; [lra | exact Hi].
  - apply Qmult_le_compat_r; [lra | exact Hi].
Qed.

Lemma amplified_ge (a : Q) : (0 <= a -> a < 1 -> (1 # 2) <= amplified a)%Q.
Proof.
  intros H0 H1. unfold amplified. apply Qle_shift_div_l; lra.
Qed.

Lemma amplified_lt (a : Q) : (a < 2 # 3 -> amplified a < 3 # 2)%Q.
Proof.
  intros H. unfold amplified. apply Qlt_shift_div_r; lra.
Qed.

(** An integer less than two away from another is at most one away. *)
Lemma Zabs_le_1_of_Q (v o : Z) (e : Q) :
  (- e <= inject_Z v - inject_Z o <= e)%Q -> (e < 2)%Q -> Z.abs (v - o) <= 1.
Proof.
  intros [Hl Hu] He.
  assert (v <= o + 1).
  { apply Zle_of_Qlt_succ. rewrite inject_Z_plus. change (inject_Z 1) with 1%Q. lra. }
  assert (o <= v + 1).
  { apply Zle_of_Qlt_succ. rewrite inject_Z_plus. change (inject_Z 1) with 1%Q. lra. }
  lia.
Qed.

Lemma amplified_proper (a b : Q) : (a == b -> amplified a == amplified b)%Q.
Proof. unfold amplified. intros ->. reflexivity. Qed.

Lemma effectiveAlpha_le (a intensity : Q) :
  (Engine.effectiveAlpha a intensity <= MAX_ALPHA)%Q.
Proof.
  unfold Engine.effectiveAlpha.
  destruct (Math_min_spec (a * intensity) MAX_ALPHA) as [[? ->]|[? ->]]; lra.
Qed.

Lemma safeAlpha_le (a : Q) : (Processor.safeAlpha a <= MAX_ALPHA)%Q.
Proof.
  unfold Processor.safeAlpha.
  destruct (Math_min_spec a MAX_ALPHA) as [[? ->]|[? ->]]; lra.
Qed.

Lemma Engine_channelOut_skip intensity lv a w :
  (a * intensity < ALPHA_THRESHOLD)%Q ->
  Engine.channelOut intensity lv a w = w.
Proof.
  intros H. unfold Engine.channelOut.
  assert (lt (Engine.effectiveAlpha a intensity) ALPHA_THRESHOLD = true) as ->; [|done].
  apply lt_spec. unfold Engine.effectiveAlpha.
  destruct (Math_min_spec (a * intensity) MAX_ALPHA) as [[? ->]|[? ->]];
    unfold MAX_ALPHA, ALPHA_THRESHOLD in *; lra.
Qed.

Lemma Engine_channelOut_restore intensity lv a w :
  let alpha := Engine.effectiveAlpha a intensity in
  (ALPHA_THRESHOLD <= alpha)%Q ->
  Engine.channelOut intensity lv a w
  = ToUint8Clamp (Some (clamp255 (unblend w alpha lv))).
Proof.
  intros alpha H. unfold Engine.channelOut. fold alpha.
  by rewrite (proj2 (lt_false alpha ALPHA_THRESHOLD) H).
Qed.

Lemma Processor_channelOut_skip lv a w :
  (a < ALPHA_THRESHOLD)%Q -> Processor.channelOut lv (Some a) w = w.
Proof.
  intros H. unfold Processor.channelOut.
  by rewrite (proj2 (lt_spec a ALPHA_THRESHOLD) H).
Qed.

Lemma Processor_channelOut_restore lv a w :
  (ALPHA_THRESHOLD <= a)%Q ->
  Processor.channelOut lv (Some a) w
  = ToUint8Clamp
      (Some (clamp255 (inject_Z (Math_round (unblend w (Processor.safeAlpha a) lv))))).
Proof.
  intros H. unfold Processor.channelOut.
  by rewrite (proj2 (lt_false a ALPHA_THRESHOLD) H).
Qed.

(** Rounding first and clamping afterwards, as [WatermarkProcessor] does,
    also gives an integer nearest to the clamped value. *)
Lemma round_then_clamp_nearest (r : Q) :
  nearest (ToUint8Clamp (Some (clamp255 (inject_Z (Math_round r))))) (clamp255 r).
Proof.
  pose proof (Math_round_nearest r) as [Hl Hu].
  set (m := Math_round r) in *.
  unfold clamp255 at 1.
  destruct (Math_min_spec 255 (inject_Z m)) as [[H1 ->]|[H1 ->]].
  - destruct (Math_max_spec 0 255) as [[_ ->]|[? _]]; [|lra].
    change (Some 255%Q) with (Some (inject_Z 255)). rewrite ToUint8Clamp_integer by lia.
    unfold nearest, clamp255.
    destruct (Math_min_spec 255 r) as [[? ->]|[? ->]];
      destruct (Math_max_spec 0 255) as [[? E]|[? E]];
      destruct (Math_max_spec 0 r) as [[? E']|[? E']];
      rewrite ?E, ?E'; change (inject_Z 255) with 255%Q in *; lra.
  - destruct (Math_max_spec 0 (inject_Z m)) as [[H0 ->]|[H0 ->]].
    + rewrite ToUint8Clamp_integer.
      2:{ split; [by rewrite Zle_Qle | apply Z.lt_le_incl; by rewrite Zlt_Qlt]. }
      unfold nearest, clamp255.
      destruct (Math_min_spec 255 r) as [[? ->]|[? ->]];
        destruct (Math_max_spec 0 255) as [[? E]|[? E]];
        destruct (Math_max_spec 0 r) as [[? E']|[? E']];
        rewrite ?E, ?E'; change (inject_Z 255) with 255%Q in *; lra.
    + change (Some 0%Q) with (Some (inject_Z 0)). rewrite ToUint8Clamp_integer by lia.
      unfold nearest, clamp255.
      destruct (Math_min_spec 255 r) as [[? ->]|[? ->]];
        destruct (Math_max_spec 0 255) as [[? E]|[? E]];
        destruct (Math_max_spec 0 r) as [[? E']|[? E']];
        rewrite ?E, ?E'; change (inject_Z 0) with 0%Q in *; lra.
Qed.

(** A channel the restoration skips keeps the watermarked value, which is
    within one of the original because the watermark is that faint. *)
Lemma skipped_round_trip (o : Z) (a : Q) :
  0 <= o <= 255 -> (0 <= a)%Q -> (a < ALPHA_THRESHOLD)%Q ->
  (- tolerance a <= inject_Z (composite o a) - inject_Z o <= tolerance a)%Q /\
  Z.abs (composite o a - o) <= 1.
Proof.
  intros Ho Ha0 Ha. unfold ALPHA_THRESHOLD in Ha.
  pose proof (Math_round_nearest (inject_Z o * (1 - a) + a * 255)) as [Hl Hu].
  fold (composite o a) in Hl, Hu.
  destruct Ho as [Ho0 Ho1]. rewrite Zle_Qle in Ho0, Ho1.
  change (inject_Z 0) with 0%Q in Ho0. change (inject_Z 255) with 255%Q in Ho1.
  set (x := inject_Z o) in *. set (w := inject_Z (composite o a)) in *.
  assert (H1 : (0 <= x * a)%Q) by (apply Qmult_le_0_compat; lra).
  assert (H2 : (x * a <= 255 * a)%Q) by (apply Qmult_le_compat_r; lra).
  assert (Hz : Z.abs (composite o a - o) <= 1).
  { apply (Zabs_le_1_of_Q _ _ (3 # 2)); [fold x w|]; lra. }
  split; [|exact Hz].
  pose proof (amplified_ge a Ha0 ltac:(lra)). unfold tolerance.
  assert (Hq : (-1 <= w - x <= 1)%Q).
  { subst w x. split.
    - assert (o - 1 <= composite o a) as Hz' by lia. rewrite Zle_Qle in Hz'.
      unfold Z.sub in Hz'. rewrite inject_Z_plus in Hz'. change (inject_Z (-1)) with (-1)%Q in Hz'. lra.
    - assert (composite o a <= o + 1) as Hz' by lia. rewrite Zle_Qle in Hz'.
      rewrite inject_Z_plus in Hz'. change (inject_Z 1) with 1%Q in Hz'. lra. }
  lra.
Qed.

(** The restored value after a synthetic watermark, for an alpha [al] that
    the formula uses and an integer [v] nearest to the clamped result. *)
Lemma restored_round_trip (o v : Z) (a al : Q) :
  0 <= o <= 255 -> (0 <= a)%Q -> (a < 1)%Q -> (al == a)%Q ->
  nearest v (clamp255 (unblend (composite o a) al 255)) ->
  (- tolerance a <= inject_Z v - inject_Z o <= tolerance a)%Q.
Proof.
  intros Ho Ha0 Ha1 Hal [Hl Hu].
  pose proof (Math_round_nearest (inject_Z o * (1 - a) + a * 255)) as [Hwl Hwu].
  fold (composite o a) in Hwl, Hwu.
  destruct Ho as [Ho0 Ho1]. rewrite Zle_Qle in Ho0, Ho1.
  change (inject_Z 0) with 0%Q in Ho0. change (inject_Z 255) with 255%Q in Ho1.
  assert (He : (- amplified a <= unblend (composite o a) al 255 - inject_Z o <= amplified a)%Q).
  { rewrite (amplified_proper a al) by (symmetry; exact Hal).
    unfold unblend. apply restore_error; rewrite ?Hal; lra. }
  pose proof (amplified_ge a Ha0 Ha1) as Hamp.
  pose proof (clamp255_closer (unblend (composite o a) al 255) (inject_Z o)
                (- amplified a) (amplified a) ltac:(lra) He ltac:(lra)) as Hc.
  unfold tolerance. lra.
Qed.

(** ** The loop of WatermarkEngine.process *)

Lemma Engine_step_get intensity lv d i a j :
  get (elems (Engine.step intensity lv d (i, a))) j =
  if (4 * i <=? j) && (j <? 4 * i + 3)
  then Engine.channelOut intensity lv a <$> get (elems d) j
  else get (elems d) j.
Proof.
  unfold Engine.step, Engine.channelOut. cbn [fst snd].
  destruct (lt (Engine.effectiveAlpha a intensity) ALPHA_THRESHOLD).
  { destruct (_ && _); [|done]. by destruct (get (elems d) j). }
  rewrite !get_set.
  destruct (Z.leb_spec (4 * i) j); destruct (Z.ltb_spec j (4 * i + 3)); cbn [andb];
    repeat match goal with |- context [ ?x =? ?y ] => destruct (Z.eqb_spec x y) end;
    try lia; subst; try done.
  all: rewrite ?get_set;
    repeat match goal with |- context [ ?x =? ?y ] => destruct (Z.eqb_spec x y) end;
    try lia; try by destruct (get (elems d) _).
Qed.

Lemma Engine_loop_get intensity lv alphas : forall i d j,
  get (elems (Engine.loop intensity lv alphas i d)) j =
  match (if (4 * i <=? j) && (j mod 4 <? 3) then get alphas (j / 4 - i) else None) with
  | Some a => Engine.channelOut intensity lv a <$> get (elems d) j
  | None => get (elems d) j
  end.
Proof.
  induction alphas as [|a rest IH]; intros i d j; cbn [Engine.loop].
  - assert (get (@nil Q) (j / 4 - i) = None) as -> by (apply get_None; simpl; lia).
    by destruct (_ && _).
  - rewrite IH, !Engine_step_get.
    destruct (Z.leb_spec (4 * i) j); destruct (Z.ltb_spec (j mod 4) 3); cbn [andb].
    all: destruct (Z.leb_spec (4 * (i + 1)) j); destruct (Z.ltb_spec j (4 * i + 3)); cbn [andb];
      try (exfalso; Z.to_euclidean_division_equations; lia).
    all: try done.
    + replace (j / 4 - i) with (j / 4 - (i + 1) + 1) by lia.
      rewrite get_cons_succ by (Z.to_euclidean_division_equations; lia). done.
    + replace (j / 4 - i) with 0 by (Z.to_euclidean_division_equations; lia). done.
Qed.

(** ** Canvas reads and writes *)

Lemma get_fmap_seqZ {A} (f : Z -> A) (n k : Z) :
  get (f <$> seqZ 0 n) k = if (0 <=? k) && (k <? n) then Some (f k) else None.
Proof.
  unfold get.
  destruct (Z.ltb_spec k 0); destruct (Z.leb_spec 0 k); try lia; cbn [andb]; [done|].
  rewrite list_lookup_fmap.
  destruct (Z.ltb_spec k n).
  - rewrite lookup_seqZ_lt by lia. simpl. f_equal. f_equal. lia.
  - rewrite lookup_seqZ_ge by lia. done.
Qed.

Lemma get_imap {A B} (f : nat -> A -> B) (l : list A) (k : Z) :
  get (imap f l) k = f (Z.to_nat k) <$> get l k.
Proof.
  unfold get. destruct (Z.ltb_spec k 0); [done|]. apply list_lookup_imap.
Qed.

(** Division facts for the row-major layout. *)
Lemma rowmajor_div (W r c : Z) : 0 <= c < W -> (r * W + c) / W = r.
Proof.
  intros. rewrite Z.add_comm, Z.div_add by lia. rewrite Z.div_small by lia. lia.
Qed.

Lemma rowmajor_mod (W r c : Z) : 0 <= c < W -> (r * W + c) mod W = c.
Proof.
  intros. rewrite Z.add_comm, Z.mod_add by lia. apply Z.mod_small. lia.
Qed.

Lemma getImageData_get c sx sy s i ch :
  0 < s -> 0 <= i < s * s -> 0 <= ch < 4 ->
  0 <= sx -> 0 <= sy -> sx + s <= c_width c -> sy + s <= c_height c ->
  get (elems (data (getImageData c sx sy s s))) (i * 4 + ch) =
  Some (default 0 (get (c_pixels c)
                     (((sy + i / s) * c_width c + (sx + i mod s)) * 4 + ch))).
Proof.
  intros Hs Hi Hch Hx Hy HW HH. unfold getImageData. cbn [data elems].
  rewrite get_fmap_seqZ.
  destruct (Z.leb_spec 0 (i * 4 + ch)); [|lia].
  destruct (Z.ltb_spec (i * 4 + ch) (4 * s * s)); [|nia]. cbn [andb].
  replace ((i * 4 + ch) / 4) with i by (Z.to_euclidean_division_equations; lia).
  replace ((i * 4 + ch) mod 4) with ch by (Z.to_euclidean_division_equations; lia).
  assert (0 <= i mod s < s) by (apply Z.mod_pos_bound; lia).
  assert (0 <= i / s < s).
  { split; [apply Z.div_pos; lia|]. apply Z.div_lt_upper_bound; lia. }
  destruct (Z.leb_spec 0 (sx + i mod s)); [|lia].
  destruct (Z.ltb_spec (sx + i mod s) (c_width c)); [|lia].
  destruct (Z.leb_spec 0 (sy + i / s)); [|lia].
  destruct (Z.ltb_spec (sy + i / s) (c_height c)); [|lia].
  done.
Qed.

(** ** WatermarkEngine.process, entry by entry *)

Lemma Engine_config_cases w h fs :
  Engine.selectConfig w h fs = Engine.getWatermarkConfigLarge \/
  Engine.selectConfig w h fs = Engine.getWatermarkConfigSmall.
Proof.
  unfold Engine.selectConfig, Engine.getWatermarkConfig.
  destruct fs as [[]|]; auto. destruct (_ && _); auto.
Qed.

Lemma Engine_process_unfold e c fs intensity am :
  let config := Engine.selectConfig (c_width c) (c_height c) fs in
  Engine.ready e = true ->
  Engine.alphaMapFor e config = Some am ->
  0 <= Engine.roiX c config -> 0 <= Engine.roiY c config ->
  Engine.process e c fs intensity =
  (putImageData c
     {| width := Engine.logo_size config; height := Engine.logo_size config;
        data := Engine.loop intensity (Engine.logoValue e) (am_data am) 0
                  (data (getImageData c (Engine.roiX c config) (Engine.roiY c config)
                           (Engine.logo_size config) (Engine.logo_size config))) |}
     (Engine.roiX c config) (Engine.roiY c config), Return tt).
Proof.
  intros config Hr Ham Hx Hy. unfold Engine.process.
  rewrite Hr. cbn [negb].
  fold config. unfold Engine.alphaMapFor in Ham. rewrite Ham.
  unfold Engine.roiX, Engine.roiY in *.
  destruct (Z.ltb_spec (c_width c - Engine.margin_right config - Engine.logo_size config) 0); [lia|].
  destruct (Z.ltb_spec (c_height c - Engine.margin_bottom config - Engine.logo_size config) 0); [lia|].
  reflexivity.
Qed.

Lemma Engine_process_get e c fs intensity am k :
  let config := Engine.selectConfig (c_width c) (c_height c) fs in
  Engine.ready e = true ->
  Engine.alphaMapFor e config = Some am ->
  0 <= Engine.roiX c config -> 0 <= Engine.roiY c config ->
  get (c_pixels (Engine.process e c fs intensity).1) k =
  match roiEntry (c_width c) (Engine.roiX c config) (Engine.roiY c config) (Engine.logo_size config) k with
  | Some i =>
      if k mod 4 <? 3 then
        match get (am_data am) i with
        | Some a => Engine.channelOut intensity (Engine.logoValue e) a <$> get (c_pixels c) k
        | None => get (c_pixels c) k
        end
      else get (c_pixels c) k
  | None => get (c_pixels c) k
  end.
Proof.
  intros config Hr Ham Hx Hy.
  rewrite (Engine_process_unfold e c fs intensity am Hr Ham Hx Hy). fold config.
  cbn [fst]. unfold putImageData. cbn [c_pixels width height data elems].
  rewrite get_imap.
  destruct (get (c_pixels c) k) as [old|] eqn:Hk.
  2:{ simpl. destruct (roiEntry _ _ _ _ _); [|done].
      destruct (_ <? _); [|done]. by destruct (get (am_data am) _). }
  apply get_range in Hk as Hrange.
  cbn [fmap option_fmap option_map]. rewrite Z2Nat.id by lia.
  unfold roiEntry.
  set (s := Engine.logo_size config) in *.
  set (W := c_width c) in *.
  set (x0 := Engine.roiX c config) in *. set (y0 := Engine.roiY c config) in *.
  assert (Hs : 0 < s /\ x0 + s <= W /\ y0 + s <= c_height c).
  { subst s x0 y0 W. unfold Engine.roiX, Engine.roiY in *.
    destruct (Engine_config_cases (c_width c) (c_height c) fs) as [E|E];
      fold config in E; rewrite E in *; cbn in *; lia. }
  destruct Hs as (Hs & HxW & HyH).
  set (px := (k / 4) mod W). set (py := (k / 4) / W).
  destruct ((x0 <=? px) && (px <? x0 + s) && (y0 <=? py) && (py <? y0 + s)) eqn:Hin; [|done].
  apply andb_prop in Hin as [Hin Hin4]. apply andb_prop in Hin as [Hin Hin3].
  apply andb_prop in Hin as [Hin1 Hin2].
  apply Z.leb_le in Hin1, Hin3. apply Z.ltb_lt in Hin2, Hin4.
  set (i := (py - y0) * s + (px - x0)).
  assert (Hi : 0 <= i < s * s) by (subst i; nia).
  assert (Hch : 0 <= k mod 4 < 4) by (apply Z.mod_pos_bound; lia).
  rewrite Engine_loop_get.
  replace ((i * 4 + k mod 4) mod 4) with (k mod 4)
    by (Z.to_euclidean_division_equations; lia).
  replace ((i * 4 + k mod 4) / 4 - 0) with i
    by (Z.to_euclidean_division_equations; lia).
  destruct (Z.leb_spec (4 * 0) (i * 4 + k mod 4)); [|lia]. cbn [andb].
  rewrite getImageData_get by (fold W; lia).
  replace (i / s) with (py - y0) by (subst i; symmetry; apply rowmajor_div; lia).
  replace (i mod s) with (px - x0) by (subst i; symmetry; apply rowmajor_mod; lia).
  replace (((y0 + (py - y0)) * c_width c + (x0 + (px - x0))) * 4 + k mod 4) with k.
  2:{ fold W. subst px py.
      pose proof (Z.div_mod (k / 4) W ltac:(lia)). pose proof (Z.div_mod k 4 ltac:(lia)). lia. }
  rewrite Hk. cbn [default].
  destruct (k mod 4 <? 3); [|done].
  destruct (get (am_data am) i); done.
Qed.

(** ** Loops whose iterations touch disjoint entries *)

Section LoopPointwise.
Context {S K : Type} `{EqDecision K}.
Variable rd : S -> Z -> option Z.
Variable step : S -> K -> S.
Variable hit : K -> Z -> bool.
Variable own : Z -> option K.
Variable out : K -> Z -> Z.

Hypothesis step_rd : forall s k j,
  rd (step s k) j = if hit k j then out k <$> rd s j else rd s j.
Hypothesis hit_own : forall k j, hit k j = true <-> own j = Some k.

Lemma fold_rd_miss ks : forall s j,
  (forall k, k ∈ ks -> own j <> Some k) ->
  rd (fold_left step ks s) j = rd s j.
Proof.
  induction ks as [|k0 ks IH]; intros s j Hmiss; cbn [fold_left]; [done|].
  rewrite IH by (intros k Hk; apply Hmiss; by right).
  rewrite step_rd.
  destruct (hit k0 j) eqn:Hh; [|done].
  apply hit_own in Hh. exfalso. apply (Hmiss k0); [by left | done].
Qed.

Lemma fold_rd ks : forall s j,
  NoDup ks ->
  rd (fold_left step ks s) j =
  match own j with
  | Some k => if bool_decide (k ∈ ks) then out k <$> rd s j else rd s j
  | None => rd s j
  end.
Proof.
  induction ks as [|k0 ks IH]; intros s j Hnd; cbn [fold_left].
  { destruct (own j); [|done]. rewrite bool_decide_eq_false_2; [done|]. apply not_elem_of_nil. }
  apply NoDup_cons in Hnd as [Hk0 Hnd].
  destruct (hit k0 j) eqn:Hh.
  - apply hit_own in Hh as Ho. rewrite Ho.
    rewrite bool_decide_eq_true_2 by (by left).
    rewrite fold_rd_miss; [by rewrite step_rd, Hh|].
    intros k Hk E. rewrite Ho in E. congruence.
  - rewrite IH, step_rd, Hh by done.
    destruct (own j) as [k|] eqn:Ho; [|done].
    assert (k <> k0) by (intros ->; apply hit_own in Ho; congruence).
    destruct (bool_decide_reflect (k ∈ ks)) as [Hin|Hin].
    + rewrite bool_decide_eq_true_2; [done | by right].
    + rewrite bool_decide_eq_false_2; [done|].
      intros [?|?]%elem_of_cons; done.
Qed.
End LoopPointwise.

Lemma fold_left_fmap {S A B} (f : S -> B -> S) (g : A -> B) (l : list A) :
  forall s, fold_left f (g <$> l) s = fold_left (fun s a => f s (g a)) l s.
Proof. induction l as [|a l IH]; intros s; [done | apply IH]. Qed.

Lemma fold_left_nested {S A B} (f : S -> A * B -> S) (lb : list B) (la : list A) :
  forall s,
  fold_left (fun s a => fold_left (fun s b => f s (a, b)) lb s) la s =
  fold_left f (a ← la; pair a <$> lb) s.
Proof.
  induction la as [|a la IH]; intros s; [done|].
  cbn [fold_left]. rewrite IH.
  change ((a :: la) ≫= (fun a0 => pair a0 <$> lb))
    with ((pair a <$> lb) ++ (la ≫= (fun a0 => pair a0 <$> lb))).
  by rewrite fold_left_app, fold_left_fmap.
Qed.

(** ** The loops of WatermarkProcessor.process *)

Lemma Processor_step_get W H cfg am lv d rc j :
  get (elems (Processor.step W H cfg am lv d rc)) j =
  if Processor.hit W H cfg rc j
  then Processor.channelOut lv (get (am_data am) (rc.1 * Processor.size cfg + rc.2)) <$> get (elems d) j
  else get (elems d) j.
Proof.
  unfold Processor.step, Processor.hit, Processor.channelOut.
  destruct (_ || _); cbn [negb andb]; [done|].
  set (alpha := get (am_data am) _).
  destruct (match alpha with Some a => lt a ALPHA_THRESHOLD | None => false end).
  { destruct (_ && _); [|done]. by destruct (get (elems d) j). }
  set (pixelIndex := (_ * W + _) * 4).
  change (seqZ 0 3) with [0; 1; 2]. cbn [fold_left]. unfold Processor.channel.
  rewrite !get_set.
  destruct (Z.leb_spec pixelIndex j); destruct (Z.ltb_spec j (pixelIndex + 3)); cbn [andb];
    repeat match goal with |- context [ ?x =? ?y ] => destruct (Z.eqb_spec x y) end;
    try lia; subst; try done.
  all: rewrite ?get_set;
    repeat match goal with |- context [ ?x =? ?y ] => destruct (Z.eqb_spec x y) end;
    try lia; try by destruct (get (elems d) _).
Qed.

Lemma Processor_hit_owner W H cfg rc j :
  Processor.hit W H cfg rc j = true <-> Processor.owner W H cfg j = Some rc.
Proof.
  destruct rc as [row col]. unfold Processor.hit, Processor.owner. cbn [fst snd].
  set (imgX := Processor.x cfg + col). set (imgY := Processor.y cfg + row).
  split.
  - intros Hh. apply andb_prop in Hh as [Hh H3]. apply andb_prop in Hh as [Hb H2].
    apply negb_true_iff in Hb. apply orb_false_elim in Hb as [Hb Hb4].
    apply orb_false_elim in Hb as [Hb Hb3]. apply orb_false_elim in Hb as [Hb1 Hb2].
    apply Z.ltb_ge in Hb1, Hb3. rewrite Z.geb_leb in Hb2, Hb4. apply Z.leb_gt in Hb2, Hb4.
    apply Z.leb_le in H2. apply Z.ltb_lt in H3.
    assert (Hp : j / 4 = imgY * W + imgX) by (Z.to_euclidean_division_equations; lia).
    assert (Hc : j mod 4 < 3) by (Z.to_euclidean_division_equations; lia).
    rewrite Hp, rowmajor_mod, rowmajor_div by lia.
    destruct (Z.ltb_spec 0 W); [|lia]. destruct (Z.leb_spec 0 imgY); [|lia].
    destruct (Z.ltb_spec imgY H); [|lia]. destruct (Z.ltb_spec (j mod 4) 3); [|lia].
    cbn [andb]. f_equal. f_equal; subst imgX imgY; lia.
  - destruct (Z.ltb_spec 0 W); [|done]. destruct (Z.leb_spec 0 (j / 4 / W)); [|done].
    destruct (Z.ltb_spec (j / 4 / W) H); [|done]. destruct (Z.ltb_spec (j mod 4) 3); [|done].
    cbn [andb]. intros [= Hr Hc].
    assert (0 <= (j / 4) mod W < W) by (apply Z.mod_pos_bound; lia).
    assert (HX : imgX = (j / 4) mod W) by (subst imgX; lia).
    assert (HY : imgY = j / 4 / W) by (subst imgY; lia).
    rewrite HX, HY.
    replace (j / 4 / W * W + (j / 4) mod W) with (j / 4)
      by (pose proof (Z.div_mod (j / 4) W ltac:(lia)); lia).
    destruct (Z.ltb_spec ((j / 4) mod W) 0); [lia|].
    destruct (Z.ltb_spec (j / 4 / W) 0); [lia|].
    rewrite !Z.geb_leb.
    destruct (Z.leb_spec W ((j / 4) mod W)); [lia|].
    destruct (Z.leb_spec H (j / 4 / W)); [lia|]. cbn [orb negb andb].
    apply andb_true_intro. split; [apply Z.leb_le | apply Z.ltb_lt];
      Z.to_euclidean_division_equations; lia.
Qed.

Lemma Processor_positions_NoDup (n : Z) :
  NoDup (a ← seqZ 0 n; pair a <$> seqZ 0 n).
Proof.
  apply NoDup_bind.
  - intros r1 r2 [r c] _ _ H1 H2.
    apply list_elem_of_fmap in H1 as (? & [= -> _] & _).
    apply list_elem_of_fmap in H2 as (? & [= -> _] & _). done.
  - intros r _. apply NoDup_fmap_2; [|apply NoDup_seqZ]. by intros ?? [= ->].
  - apply NoDup_seqZ.
Qed.

Lemma Processor_positions_elem (n row col : Z) :
  (row, col) ∈ (a ← seqZ 0 n; pair a <$> seqZ 0 n) <->
  (0 <= row < n /\ 0 <= col < n).
Proof.
  rewrite list_elem_of_bind. split.
  - intros (r & Hc & Hr). apply list_elem_of_fmap in Hc as (c & [= -> ->] & Hc).
    apply elem_of_seqZ in Hr, Hc. lia.
  - intros [Hr Hc]. exists row. split.
    + apply list_elem_of_fmap. exists col. split; [done|]. apply elem_of_seqZ. lia.
    + apply elem_of_seqZ. lia.
Qed.

Lemma Processor_loop_get W H cfg am lv d j :
  get (elems (Processor.loop W H cfg am lv d)) j =
  match Processor.owner W H cfg j with
  | Some (row, col) =>
      if (0 <=? row) && (row <? Processor.size cfg)
         && (0 <=? col) && (col <? Processor.size cfg)
      then Processor.channelOut lv (get (am_data am) (row * Processor.size cfg + col))
             <$> get (elems d) j
      else get (elems d) j
  | None => get (elems d) j
  end.
Proof.
  unfold Processor.loop.
  rewrite (fold_left_nested (Processor.step W H cfg am lv)).
  rewrite (fold_rd (fun s => get (elems s)) (Processor.step W H cfg am lv)
             (Processor.hit W H cfg) (Processor.owner W H cfg)
             (fun rc => Processor.channelOut lv (get (am_data am) (rc.1 * Processor.size cfg + rc.2)))).
  - destruct (Processor.owner W H cfg j) as [[row col]|]; [|done]. cbn [fst snd].
    destruct (bool_decide_reflect
                ((row, col) ∈ (a ← seqZ 0 (Processor.size cfg); pair a <$> seqZ 0 (Processor.size cfg))))
      as [Hin|Hin]; rewrite Processor_positions_elem in Hin.
    + destruct (Z.leb_spec 0 row); [|lia]. destruct (Z.ltb_spec row (Processor.size cfg)); [|lia].
      destruct (Z.leb_spec 0 col); [|lia]. destruct (Z.ltb_spec col (Processor.size cfg)); [|lia].
      done.
    + destruct (Z.leb_spec 0 row); [|done]. destruct (Z.ltb_spec row (Processor.size cfg)); [|done].
      destruct (Z.leb_spec 0 col); [|done]. destruct (Z.ltb_spec col (Processor.size cfg)); [|done].
      lia.
  - intros. apply Processor_step_get.
  - intros. apply Processor_hit_owner.
  - apply Processor_positions_NoDup.
Qed.

Lemma set_in_range a i v :
  0 <= i < Z.of_nat (length (elems a)) -> dropped (set a i v) = dropped a.
Proof.
  intros Hi. unfold set.
  destruct (Z.leb_spec 0 i); [|lia].
  destruct (Z.ltb_spec i (Z.of_nat (length (elems a)))); [|lia]. done.
Qed.

(** An invariant of the state is an invariant of a loop over it. *)
Lemma fold_left_invariant {S K} (P : S -> Prop) (step : S -> K -> S) (ks : list K) :
  (forall s k, k ∈ ks -> P s -> P (step s k)) -> forall s, P s -> P (fold_left step ks s).
Proof.
  induction ks as [|k ks IH]; intros Hstep s Hs; [done|].
  cbn [fold_left]. apply IH.
  - intros s' k' Hk'. apply Hstep. by right.
  - apply Hstep; [by left | done].
Qed.

Section ProcessorStores.
Variables (W H : Z) (cfg : Processor.Config) (am : AlphaMap) (lv : Q).
Variables (n : nat) (dr : list Z).
Hypothesis size_n : Z.of_nat n = 4 * W * H.

Lemma Processor_step_intact d rc :
  intact n dr d -> intact n dr (Processor.step W H cfg am lv d rc).
Proof.
  intros Hd. unfold Processor.step.
  set (imgX := Processor.x cfg + rc.2). set (imgY := Processor.y cfg + rc.1).
  destruct (Z.ltb_spec imgX 0); [done|]. rewrite !Z.geb_leb.
  destruct (Z.leb_spec W imgX); [done|].
  destruct (Z.ltb_spec imgY 0); [done|].
  destruct (Z.leb_spec H imgY); [done|]. cbn [orb].
  destruct (match get (am_data am) _ with Some a => lt a ALPHA_THRESHOLD | None => false end);
    [done|].
  apply fold_left_invariant; [|done].
  intros s c Hc%elem_of_seqZ [Hlen Hdr]. unfold Processor.channel. split.
  - by rewrite length_set.
  - rewrite set_in_range; [done|]. rewrite Hlen, size_n. nia.
Qed.

Lemma Processor_loop_intact d :
  intact n dr d -> intact n dr (Processor.loop W H cfg am lv d).
Proof.
  unfold Processor.loop.
  apply fold_left_invariant. intros s row _.
  apply fold_left_invariant. intros s' col _.
  apply Processor_step_intact.
Qed.
End ProcessorStores.

Lemma Processor_process_unfold p img mode lv am :
  let config := Processor.getWatermarkConfig (width img) (height img) mode in
  Processor.alphaMapFor p config = Some am ->
  Processor.process p img mode lv =
  Return {| width := width img; height := height img;
            data := Processor.loop (width img) (height img) config am lv (data img) |}.
Proof.
  intros config Ham. unfold Processor.process. fold config.
  unfold Processor.alphaMapFor in Ham. by rewrite Ham.
Qed.

Lemma Processor_config_cases w h mode :
  let config := Processor.getWatermarkConfig w h mode in
  (Processor.size config = 96 /\ Processor.margin config = 64 \/
   Processor.size config = 48 /\ Processor.margin config = 32) /\
  Processor.x config = w - Processor.margin config - Processor.size config /\
  Processor.y config = h - Processor.margin config - Processor.size config.
Proof.
  unfold Processor.getWatermarkConfig.
  destruct (String.eqb mode "48"); [cbn; lia|].
  destruct (String.eqb mode "96"); [cbn; lia|].
  destruct (_ && _); cbn; lia.
Qed.

(** The entry [j] of the buffer after the loops of [process]. *)
Lemma Processor_loop_get_roi W H cfg am lv d j :
  get (elems (Processor.loop W H cfg am lv d)) j =
  match roiEntry W (Processor.x cfg) (Processor.y cfg) (Processor.size cfg) j with
  | Some i =>
      if (0 <? W) && (0 <=? j / 4 / W) && (j / 4 / W <? H) && (j mod 4 <? 3)
      then Processor.channelOut lv (get (am_data am) i) <$> get (elems d) j
      else get (elems d) j
  | None => get (elems d) j
  end.
Proof.
  rewrite Processor_loop_get. unfold Processor.owner, roiEntry.
  set (px := (j / 4) mod W). set (py := j / 4 / W).
  set (x := Processor.x cfg). set (y := Processor.y cfg). set (s := Processor.size cfg).
  destruct ((0 <? W) && (0 <=? py) && (py <? H) && (j mod 4 <? 3)).
  - destruct (Z.leb_spec 0 (py - y)); destruct (Z.ltb_spec (py - y) s);
      destruct (Z.leb_spec 0 (px - x)); destruct (Z.ltb_spec (px - x) s);
      destruct (Z.leb_spec x px); destruct (Z.ltb_spec px (x + s));
      destruct (Z.leb_spec y py); destruct (Z.ltb_spec py (y + s));
      cbn [andb]; try lia; done.
  - by destruct (_ && _).
Qed.

(** On a well-formed image every entry lies in a pixel of the image. *)
Lemma wellFormed_entry img j w :
  Processor.wellFormed img -> get (elems (data img)) j = Some w ->
  (0 <? width img) && (0 <=? j / 4 / width img) && (j / 4 / width img <? height img) = true.
Proof.
  intros (HW & HH & Hlen) Hj%get_range. rewrite Hlen in Hj.
  assert (0 < width img) by nia.
  assert (0 <= j / 4) by (apply Z.div_pos; lia).
  assert (j / 4 < width img * height img) by (apply Z.div_lt_upper_bound; lia).
  destruct (Z.ltb_spec 0 (width img)); [|lia].
  destruct (Z.leb_spec 0 (j / 4 / width img)).
  2:{ pose proof (Z.div_pos (j / 4) (width img)). lia. }
  destruct (Z.ltb_spec (j / 4 / width img) (height img)); [done|].
  pose proof (Z.div_lt_upper_bound (j / 4) (width img) (height img)). lia.
Qed.

Lemma Engine_process_negative_roi e c forceSize intensity :
  let config := Engine.selectConfig (c_width c) (c_height c) forceSize in
  Engine.ready e = true ->
  Engine.roiX c config < 0 \/ Engine.roiY c config < 0 ->
  Engine.process e c forceSize intensity = (c, Return tt).
Proof.
  intros config Hr Hroi. unfold Engine.process. rewrite Hr. cbn [negb].
  fold config. unfold Engine.roiX, Engine.roiY in Hroi.
  destruct Hroi as [Hx|Hy].
  - by rewrite (proj2 (Z.ltb_lt _ _) Hx).
  - rewrite (proj2 (Z.ltb_lt _ _) Hy). by rewrite orb_true_r.
Qed.

Lemma Processor_loop_length W H cfg am lv d :
  length (elems (Processor.loop W H cfg am lv d)) = length (elems d).
Proof.
  set (P := fun s : Uint8ClampedArray => length (elems s) = length (elems d)).
  unfold Processor.loop. change (P (fold_left
    (fun d0 row => fold_left
       (fun d1 col => Processor.step W H cfg am lv d1 (row, col))
       (seqZ 0 (Processor.size cfg)) d0)
    (seqZ 0 (Processor.size cfg)) d)).
  apply fold_left_invariant; [|done].
  intros s row _. apply (fold_left_invariant P). intros s' col _ Hs'.
  unfold Processor.step.
  destruct (_ || _); [done|]. destruct (match get _ _ with Some _ => _ | None => _ end); [done|].
  apply (fold_left_invariant P); [|done].
  intros s'' c _ Hs''. unfold Processor.channel, P. by rewrite length_set.
Qed.

(** What a call of [WatermarkEngine.process] leaves outside the colour
    channels of the region of interest. *)
Lemma Engine_process_frame e c forceSize intensity k :
  let config := Engine.selectConfig (c_width c) (c_height c) forceSize in
  let c' := (Engine.process e c forceSize intensity).1 in
  k mod 4 = 3 \/
  roiEntry (c_width c) (Engine.roiX c config) (Engine.roiY c config)
    (Engine.logo_size config) k = None ->
  get (c_pixels c') k = get (c_pixels c) k.
Proof.
  intros config c' Hk. subst c'.
  destruct (Engine.ready e) eqn:Hr.
  2:{ unfold Engine.process. by rewrite Hr. }
  destruct (Z.ltb_spec (Engine.roiX c config) 0) as [Hx|Hx].
  { by rewrite Engine_process_negative_roi by (done || by left). }
  destruct (Z.ltb_spec (Engine.roiY c config) 0) as [Hy|Hy].
  { by rewrite Engine_process_negative_roi by (done || by right). }
  destruct (Engine.alphaMapFor e config) as [am|] eqn:Ham.
  2:{ unfold Engine.process. rewrite Hr. cbn [negb]. fold config.
      unfold Engine.alphaMapFor in Ham. rewrite Ham.
      unfold Engine.roiX, Engine.roiY in Hx, Hy.
      by repeat match goal with |- context [ ?a <? 0 ] => destruct (Z.ltb_spec a 0); [lia|] end. }
  rewrite (Engine_process_get e c forceSize intensity am k Hr Ham Hx Hy). fold config.
  destruct Hk as [Hk | ->]; [|done].
  destruct (roiEntry _ _ _ _ _); [|done].
  destruct (Z.ltb_spec (k mod 4) 3); [lia | done].
Qed.

Lemma Engine_process_dims e c forceSize intensity :
  let c' := (Engine.process e c forceSize intensity).1 in
  c_width c' = c_width c /\ c_height c' = c_height c /\
  length (c_pixels c') = length (c_pixels c).
Proof.
  unfold Engine.process.
  destruct (negb (Engine.ready e)); [done|].
  destruct (_ || _); [done|].
  destruct (if _ =? 96 then _ else _); [|done].
  cbn [fst putImageData c_width c_height c_pixels]. by rewrite length_imap.
Qed.

(** ** Round trip of one channel *)

Lemma tolerance_within_one (v o : Z) (a : Q) :
  (- tolerance a <= inject_Z v - inject_Z o <= tolerance a)%Q ->
  (a < 2 # 3)%Q -> Z.abs (v - o) <= 1.
Proof.
  intros Hb Ha. apply (Zabs_le_1_of_Q v o (tolerance a) Hb).
  pose proof (amplified_lt a Ha). unfold tolerance. lra.
Qed.

Lemma Engine_channelOut_round_trip (o : Z) (a : Q) :
  0 <= o <= 255 -> (0 <= a)%Q -> (a < 99 # 100)%Q ->
  let v := Engine.channelOut 1 255 a (composite o a) in
  (- tolerance a <= inject_Z v - inject_Z o <= tolerance a)%Q.
Proof.
  intros Ho Ha0 Ha1 v. subst v.
  destruct (Qlt_le_dec (a * 1) ALPHA_THRESHOLD) as [Hlt|Hge].
  - rewrite Engine_channelOut_skip by done.
    apply skipped_round_trip; [done..|]. lra.
  - assert (Heff : Engine.effectiveAlpha a 1 = (a * 1)%Q).
    { unfold Engine.effectiveAlpha.
      destruct (Math_min_spec (a * 1) MAX_ALPHA) as [[_ ->]|[Hgt _]]; [done|].
      unfold MAX_ALPHA in Hgt. lra. }
    rewrite Engine_channelOut_restore by (by rewrite Heff).
    rewrite Heff.
    apply (restored_round_trip o _ a (a * 1)%Q); [done | done | lra | ring |].
    apply ToUint8Clamp_nearest, clamp255_range.
Qed.

Lemma Processor_channelOut_round_trip (o : Z) (a : Q) :
  0 <= o <= 255 -> (0 <= a)%Q -> (a < 99 # 100)%Q ->
  let v := Processor.channelOut 255 (Some a) (composite o a) in
  (- tolerance a <= inject_Z v - inject_Z o <= tolerance a)%Q.
Proof.
  intros Ho Ha0 Ha1 v. subst v.
  destruct (Qlt_le_dec a ALPHA_THRESHOLD) as [Hlt|Hge].
  - rewrite Processor_channelOut_skip by done.
    by apply skipped_round_trip.
  - assert (Hsafe : Processor.safeAlpha a = a).
    { unfold Processor.safeAlpha.
      destruct (Math_min_spec a MAX_ALPHA) as [[_ ->]|[Hgt _]]; [done|].
      unfold MAX_ALPHA in Hgt. lra. }
    rewrite Processor_channelOut_restore by done.
    rewrite Hsafe.
    apply (restored_round_trip o _ a a); [done | done | lra | reflexivity |].
    apply round_then_clamp_nearest.
Qed.

(** The colour entries of [WatermarkProcessor.process] on a well-formed
    image. *)
Lemma Processor_process_get p img mode lv am j i w :
  let config := Processor.getWatermarkConfig (width img) (height img) mode in
  Processor.wellFormed img ->
  Processor.alphaMapFor p config = Some am ->
  roiEntry (width img) (Processor.x config) (Processor.y config)
    (Processor.size config) j = Some i ->
  j mod 4 < 3 ->
  get (elems (data img)) j = Some w ->
  exists img',
    Processor.process p img mode lv = Return img' /\
    get (elems (data img')) j = Some (Processor.channelOut lv (get (am_data am) i) w).
Proof.
  intros config Hwf Ham Hroi Hch Hw.
  eexists. split; [by apply Processor_process_unfold|].
  cbn [data]. fold config. rewrite Processor_loop_get_roi, Hroi.
  rewrite (wellFormed_entry img j w Hwf Hw).
  destruct (Z.ltb_spec (j mod 4) 3); [|lia]. cbn [andb]. by rewrite Hw.
Qed.

(** The colour entries of [WatermarkEngine.process] inside the region. *)
Lemma Engine_process_get_colour e c fs intensity am k i a w :
  let config := Engine.selectConfig (c_width c) (c_height c) fs in
  Engine.ready e = true ->
  Engine.alphaMapFor e config = Some am ->
  0 <= Engine.roiX c config -> 0 <= Engine.roiY c config ->
  roiEntry (c_width c) (Engine.roiX c config) (Engine.roiY c config)
    (Engine.logo_size config) k = Some i ->
  k mod 4 < 3 ->
  get (am_data am) i = Some a ->
  get (c_pixels c) k = Some w ->
  get (c_pixels (Engine.process e c fs intensity).1) k
  = Some (Engine.channelOut intensity (Engine.logoValue e) a w).
Proof.
  intros config Hr Ham Hx Hy Hroi Hch Ha Hw.
  rewrite (Engine_process_get e c fs intensity am k Hr Ham Hx Hy). fold config.
  rewrite Hroi, Ha, Hw. by destruct (Z.ltb_spec (k mod 4) 3); [|lia].
Qed.

(** ** The formula with the library's minimum and maximum *)

Lemma nearest_proper (v : Z) (x y : Q) : (x == y)%Q -> nearest v x -> nearest v y.
Proof. unfold nearest. intros E [Hl Hu]. split; lra. Qed.

Lemma clamp255_proper (x y : Q) : (x == y -> clamp255 x == clamp255 y)%Q.
Proof.
  intros E. unfold clamp255.
  destruct (Math_min_spec 255 x) as [[? ->]|[? ->]];
    destruct (Math_min_spec 255 y) as [[? ->]|[? ->]];
    repeat match goal with
           | |- context [Math_max 0 ?z] =>
               destruct (Math_max_spec 0 z) as [[? ->]|[? ->]]
           end; lra.
Qed.

Lemma unblend_proper (w : Z) (a b l : Q) :
  (a == b -> unblend w a l == unblend w b l)%Q.
Proof. intros E. unfold unblend. by rewrite E. Qed.

Lemma Math_min_Qmin (x y : Q) : (Math_min x y == Qmin x y)%Q.
Proof.
  destruct (Math_min_spec x y) as [[? ->]|[? ->]];
    destruct (Q.min_spec x y) as [[? E]|[? E]]; rewrite E; lra.
Qed.

Lemma clamp255_Qmax (x : Q) : (clamp255 x == Qmax 0 (Qmin 255 x))%Q.
Proof.
  unfold clamp255.
  destruct (Q.min_spec 255 x) as [[? E]|[? E]];
    destruct (Q.max_spec 0 (Qmin 255 x)) as [[? E']|[? E']];
    rewrite E', ?E;
    destruct (Math_min_spec 255 x) as [[? ->]|[? ->]];
    repeat match goal with
           | |- context [Math_max 0 ?z] =>
               destruct (Math_max_spec 0 z) as [[? ->]|[? ->]]
           end; lra.
Qed.

(** A stored value nearest to the clamped formula at the code's alpha is
    nearest to it at any alpha equal as a number, with the clamp written
    with [Qmax] and [Qmin]. *)
Lemma nearest_formula (v w : Z) (al alpha : Q) :
  (al == alpha)%Q ->
  nearest v (clamp255 (unblend w al 255)) ->
  nearest v (Qmax 0 (Qmin 255 (unblend w alpha 255))).
Proof.
  intros E Hn. apply (nearest_proper v (clamp255 (unblend w al 255))); [|done].
  rewrite <- clamp255_Qmax. by apply clamp255_proper, unblend_proper.
Qed.

(** * The claims *)

(** C3. Under automatic selection both implementations choose the large
    placement (logo 96, margins 64) exactly when width and height are both
    strictly greater than 1024, and the small one (logo 48, margins 32)
    otherwise; 1024 x 1024 selects the small one. *)
Theorem auto_variant_selection (width height : Z) :
  (Engine.selectConfig width height None
     = Engine.mkConfig 64 64 96 96 <-> (1024 < width /\ 1024 < height)) /\
  (Engine.selectConfig width height None
     = Engine.mkConfig 32 32 48 48 <-> ~ (1024 < width /\ 1024 < height)) /\
  (Processor.getWatermarkConfig width height "auto"
     = Processor.mkConfig 96 64 (width - 64 - 96) (height - 64 - 96)
   <-> (1024 < width /\ 1024 < height)) /\
  (Processor.getWatermarkConfig width height "auto"
     = Processor.mkConfig 48 32 (width - 32 - 48) (height - 32 - 48)
   <-> ~ (1024 < width /\ 1024 < height)) /\
  Engine.selectConfig 1024 1024 None = Engine.mkConfig 32 32 48 48 /\
  Processor.size (Processor.getWatermarkConfig 1024 1024 "auto") = 48 /\
  Processor.margin (Processor.getWatermarkConfig 1024 1024 "auto") = 32.
Proof.
  unfold Engine.selectConfig, Engine.getWatermarkConfig, Processor.getWatermarkConfig.
  change (String.eqb "auto" "48") with false. change (String.eqb "auto" "96") with false.
  cbv iota.
  destruct (Z.gtb_spec width 1024); destruct (Z.gtb_spec height 1024); cbn.
  all: repeat split; try discriminate; try lia; try done.
  all: try (intros []; lia).
  all: intros H'; exfalso; apply H'; lia.
Qed.

(** C9. An explicit SMALL or LARGE override selects the corresponding fixed
    placement whatever the dimensions of the image. *)
Theorem override_precedence (width height : Z) :
  Engine.selectConfig width height (Some LARGE) = Engine.mkConfig 64 64 96 96 /\
  Engine.selectConfig width height (Some SMALL) = Engine.mkConfig 32 32 48 48 /\
  Processor.size (Processor.getWatermarkConfig width height "96") = 96 /\
  Processor.margin (Processor.getWatermarkConfig width height "96") = 64 /\
  Processor.size (Processor.getWatermarkConfig width height "48") = 48 /\
  Processor.margin (Processor.getWatermarkConfig width height "48") = 32.
Proof. repeat split. Qed.

(** C7. Whatever the alpha-map entry and the intensity, the alpha that
    enters the inverse-blend formula is at most 0.99, so the denominator
    [1 - alpha] is at least 0.01. *)
Theorem effective_alpha_clamped (a intensity : Q) :
  (Engine.effectiveAlpha a intensity <= 99 # 100 /\
   1 # 100 <= 1 - Engine.effectiveAlpha a intensity /\
   Processor.safeAlpha a <= 99 # 100 /\
   1 # 100 <= 1 - Processor.safeAlpha a)%Q.
Proof.
  pose proof (effectiveAlpha_le a intensity) as He.
  pose proof (safeAlpha_le a) as Hs.
  unfold MAX_ALPHA in *. repeat split; lra.
Qed.

(** C10. In WatermarkEngine, when the origin of the region of interest is
    negative in either axis, [process] returns at once and the whole canvas
    is left as it was. *)
Theorem engine_bails_out_on_negative_roi
  (e : Engine.t) (c : Canvas) (forceSize : option WATERMARK_SIZE) (intensity : Q) :
  let config := Engine.selectConfig (c_width c) (c_height c) forceSize in
  Engine.ready e = true ->
  Engine.roiX c config < 0 \/ Engine.roiY c config < 0 ->
  Engine.process e c forceSize intensity = (c, Return tt).
Proof.
  intros config Hr Hroi. unfold Engine.process.
  rewrite Hr. cbn [negb]. fold config.
  change (c_width c - Engine.margin_right config - Engine.logo_size config)
    with (Engine.roiX c config).
  change (c_height c - Engine.margin_bottom config - Engine.logo_size config)
    with (Engine.roiY c config).
  destruct (Z.ltb_spec (Engine.roiX c config) 0) as [Hx|Hx]; [reflexivity|].
  destruct (Z.ltb_spec (Engine.roiY c config) 0) as [Hy|Hy]; [reflexivity|].
  lia.
Qed.

Lemma engine_bails_out_on_negative_roi_witness :
  Engine.process (Sample.engine (1 # 2)) (Sample.canvas 100 60 200) None 1
  = (Sample.canvas 100 60 200, Return tt).
Proof.
  apply (engine_bails_out_on_negative_roi
           (Sample.engine (1 # 2)) (Sample.canvas 100 60 200) None 1).
  - reflexivity.
  - right. vm_compute. reflexivity.
Defined.

(** C5, as the code has it.  [WatermarkEngine.process] called on an engine
    that is not ready throws and leaves the canvas alone; an engine is not
    ready when it is constructed and stays so when [init] fails.
    [WatermarkProcessor.process] never throws: when the alpha map of the
    selected size is not loaded it returns the image data unchanged. *)
Theorem not_ready_behaviour :
  (forall e c forceSize intensity,
     Engine.ready e = false ->
     Engine.process e c forceSize intensity
     = (c, Throw "Watermark engine not initialized")) /\
  Engine.ready Engine.constructor = false /\
  (forall e smallImg largeImg,
     Engine.ready e = false -> smallImg = None \/ largeImg = None ->
     exists message,
       Engine.init e smallImg largeImg = (e, Throw message)) /\
  (forall p img mode logoValue,
     Processor.alphaMapFor p
       (Processor.getWatermarkConfig (width img) (height img) mode) = None ->
     Processor.process p img mode logoValue = Return img).
Proof.
  repeat split.
  - intros e c fs intensity Hr. unfold Engine.process. by rewrite Hr.
  - intros e s l _ [-> | ->]; unfold Engine.init; [|destruct s]; eauto.
  - intros p img mode lv Ham. unfold Processor.process.
    unfold Processor.alphaMapFor in Ham. by rewrite Ham.
Qed.

Lemma not_ready_behaviour_witness :
  Engine.process Engine.constructor (Sample.canvas 10 10 200) None 1
  = (Sample.canvas 10 10 200, Throw "Watermark engine not initialized") /\
  (exists message,
     Engine.init Engine.constructor None None = (Engine.constructor, Throw message)) /\
  Processor.process Processor.constructor (Sample.image 10 10 200) "auto" 255
  = Return (Sample.image 10 10 200).
Proof.
  destruct not_ready_behaviour as (He & Hc & Hi & Hp).
  split; [|split].
  - apply He. reflexivity.
  - apply Hi; [reflexivity | left; reflexivity].
  - apply Hp. reflexivity.
Defined.

(** C5, as stated, fails for [WatermarkProcessor]: called on a processor
    that has loaded nothing, [process] returns normally, with the image it
    was given. *)
Lemma processor_not_ready_returns :
  Processor.isReady Processor.constructor = false /\
  Processor.process Processor.constructor (Sample.image 10 10 200) "auto" 255
  = Return (Sample.image 10 10 200) /\
  (forall message,
     Processor.process Processor.constructor (Sample.image 10 10 200) "auto" 255
     <> Throw message).
Proof.
  split; [reflexivity|]. split; [reflexivity|]. intros message. discriminate.
Qed.

(** C8. A call changes nothing but colour channels of pixels inside the
    region of interest: the dimensions and the size of the bitmap are kept,
    every entry of a pixel outside the region is kept, and so is the alpha
    channel (entry 3) of every pixel.  This holds for every call, also one
    that throws or returns early. *)
Theorem mutation_confined_to_roi :
  (forall e c forceSize intensity k,
     let config := Engine.selectConfig (c_width c) (c_height c) forceSize in
     let c' := (Engine.process e c forceSize intensity).1 in
     c_width c' = c_width c /\ c_height c' = c_height c /\
     length (c_pixels c') = length (c_pixels c) /\
     (k mod 4 = 3 \/
      roiEntry (c_width c) (Engine.roiX c config) (Engine.roiY c config)
        (Engine.logo_size config) k = None ->
      get (c_pixels c') k = get (c_pixels c) k)) /\
  (forall p img mode logoValue j,
     let config := Processor.getWatermarkConfig (width img) (height img) mode in
     exists img',
       Processor.process p img mode logoValue = Return img' /\
       width img' = width img /\ height img' = height img /\
       length (elems (data img')) = length (elems (data img)) /\
       (j mod 4 = 3 \/
        roiEntry (width img) (Processor.x config) (Processor.y config)
          (Processor.size config) j = None ->
        get (elems (data img')) j = get (elems (data img)) j)).
Proof.
  split.
  - intros e c fs intensity k config c'.
    destruct (Engine_process_dims e c fs intensity) as (Hw & Hh & Hl).
    repeat split; try done. apply Engine_process_frame.
  - intros p img mode lv j config.
    destruct (Processor.alphaMapFor p config) as [am|] eqn:Ham.
    + eexists. split; [by apply Processor_process_unfold|].
      cbn [width height data]. fold config.
      repeat split; try done; [apply Processor_loop_length|].
      intros Hj. rewrite Processor_loop_get_roi.
      destruct Hj as [Hj | ->]; [|done].
      destruct (roiEntry _ _ _ _ _); [|done].
      destruct (Z.ltb_spec (j mod 4) 3); [lia|]. by rewrite andb_false_r.
    + exists img. split; [|done].
      unfold Processor.process. fold config.
      unfold Processor.alphaMapFor in Ham. by rewrite Ham.
Qed.

Lemma mutation_confined_to_roi_witness :
  get (c_pixels (Engine.process (Sample.engine (1 # 2)) (Sample.canvas 80 80 200) None 1).1) 3
  = get (c_pixels (Sample.canvas 80 80 200)) 3 /\
  exists img',
    Processor.process (Sample.processor (1 # 2)) (Sample.image 33 33 200) "auto" 255
    = Return img' /\
    get (elems (data img')) 3 = get (elems (data (Sample.image 33 33 200))) 3.
Proof.
  destruct mutation_confined_to_roi as [He Hp]. split.
  - apply (He (Sample.engine (1 # 2)) (Sample.canvas 80 80 200) None 1%Q 3).
    left. reflexivity.
  - destruct (Hp (Sample.processor (1 # 2)) (Sample.image 33 33 200) "auto"%string 255%Q 3)
      as (img' & Hret & _ & _ & _ & Hframe).
    exists img'. split; [exact Hret|]. apply Hframe. left. reflexivity.
Defined.

(** C4. An image too small for the placement is handled without an
    exception and without a store outside the pixel array.
    [WatermarkEngine.process] returns at once with the canvas untouched.
    [WatermarkProcessor.process] skips the positions outside the image: it
    returns normally, no store is dropped for falling outside the buffer,
    and the buffer keeps its size (true of every well-formed image, whatever
    its size). *)
Theorem undersized_image_is_safe :
  (forall e c forceSize intensity,
     let config := Engine.selectConfig (c_width c) (c_height c) forceSize in
     Engine.ready e = true ->
     c_width c < Engine.logo_size config + Engine.margin_right config \/
     c_height c < Engine.logo_size config + Engine.margin_bottom config ->
     Engine.process e c forceSize intensity = (c, Return tt)) /\
  (forall p img mode logoValue,
     Processor.wellFormed img ->
     exists img',
       Processor.process p img mode logoValue = Return img' /\
       dropped (data img') = dropped (data img) /\
       length (elems (data img')) = length (elems (data img)) /\
       width img' = width img /\ height img' = height img).
Proof.
  split.
  - intros e c fs intensity config Hr Hsmall.
    apply Engine_process_negative_roi; [done|].
    fold config. unfold Engine.roiX, Engine.roiY. lia.
  - intros p img mode lv (_ & _ & Hlen).
    set (config := Processor.getWatermarkConfig (width img) (height img) mode).
    destruct (Processor.alphaMapFor p config) as [am|] eqn:Ham.
    + eexists. split; [by apply Processor_process_unfold|].
      cbn [width height data]. fold config.
      destruct (Processor_loop_intact (width img) (height img) config am lv
                  (length (elems (data img))) (dropped (data img)) Hlen (data img))
        as [Hl Hd]; [done|].
      done.
    + exists img. split; [|done].
      unfold Processor.process. fold config.
      unfold Processor.alphaMapFor in Ham. by rewrite Ham.
Qed.

Lemma undersized_image_is_safe_witness :
  Engine.process (Sample.engine (1 # 2)) (Sample.canvas 10 10 200) (Some LARGE) 1
  = (Sample.canvas 10 10 200, Return tt) /\
  exists img',
    Processor.process (Sample.processor (1 # 2)) (Sample.image 33 33 200) "auto" 255
    = Return img' /\
    dropped (data img') = [].
Proof.
  destruct undersized_image_is_safe as [He Hp]. split.
  - apply (He (Sample.engine (1 # 2)) (Sample.canvas 10 10 200) (Some LARGE) 1%Q).
    + reflexivity.
    + left. vm_compute. reflexivity.
  - destruct (Hp (Sample.processor (1 # 2)) (Sample.image 33 33 200) "auto"%string 255%Q)
      as (img' & Hret & Hdr & _).
    + vm_compute. repeat split; discriminate.
    + exists img'. split; [exact Hret | exact Hdr].
Defined.

Lemma fmap_fixed (f : Z -> Z) (o : option Z) : (forall w, f w = w) -> f <$> o = o.
Proof. intros Hf. destruct o as [w|]; [|done]. simpl. by rewrite Hf. Qed.

(** C6. A pixel of the region of interest whose alpha-map entry, scaled by
    the intensity, is strictly below 0.002 keeps all four of its channels.
    ([WatermarkProcessor] has no intensity: the entry itself is compared.) *)
Theorem threshold_skip :
  (forall e c forceSize intensity am k i a,
     let config := Engine.selectConfig (c_width c) (c_height c) forceSize in
     Engine.alphaMapFor e config = Some am ->
     roiEntry (c_width c) (Engine.roiX c config) (Engine.roiY c config)
       (Engine.logo_size config) k = Some i ->
     get (am_data am) i = Some a ->
     (a * intensity < 2 # 1000)%Q ->
     get (c_pixels (Engine.process e c forceSize intensity).1) k = get (c_pixels c) k) /\
  (forall p img mode logoValue am j i a,
     let config := Processor.getWatermarkConfig (width img) (height img) mode in
     Processor.alphaMapFor p config = Some am ->
     roiEntry (width img) (Processor.x config) (Processor.y config)
       (Processor.size config) j = Some i ->
     get (am_data am) i = Some a ->
     (a < 2 # 1000)%Q ->
     exists img',
       Processor.process p img mode logoValue = Return img' /\
       get (elems (data img')) j = get (elems (data img)) j).
Proof.
  split.
  - intros e c fs intensity am k i a config Ham Hroi Ha Hlt.
    destruct (Engine.ready e) eqn:Hr.
    2:{ unfold Engine.process. by rewrite Hr. }
    destruct (Z.ltb_spec (Engine.roiX c config) 0) as [Hx|Hx].
    { by rewrite Engine_process_negative_roi by (done || by left). }
    destruct (Z.ltb_spec (Engine.roiY c config) 0) as [Hy|Hy].
    { by rewrite Engine_process_negative_roi by (done || by right). }
    rewrite (Engine_process_get e c fs intensity am k Hr Ham Hx Hy). fold config.
    rewrite Hroi, Ha. destruct (k mod 4 <? 3); [|done].
    apply fmap_fixed. intros w. by apply Engine_channelOut_skip.
  - intros p img mode lv am j i a config Ham Hroi Ha Hlt.
    eexists. split; [by apply Processor_process_unfold|].
    cbn [data]. fold config. rewrite Processor_loop_get_roi, Hroi, Ha.
    destruct (_ && _); [|done].
    apply fmap_fixed. intros w. by apply Processor_channelOut_skip.
Qed.

Lemma threshold_skip_witness :
  get (c_pixels (Engine.process (Sample.engine (1 # 1000)) (Sample.canvas 80 80 200) None 1).1) 0
  = get (c_pixels (Sample.canvas 80 80 200)) 0 /\
  exists img',
    Processor.process (Sample.processor (1 # 1000)) (Sample.image 33 33 200) "auto" 255
    = Return img' /\
    get (elems (data img')) 0 = get (elems (data (Sample.image 33 33 200))) 0.
Proof.
  destruct threshold_skip as [He Hp]. split.
  - apply (He (Sample.engine (1 # 1000)) (Sample.canvas 80 80 200) None 1%Q
             (Sample.alpha48 (1 # 1000)) 0 0 (1 # 1000)%Q).
    + reflexivity.
    + reflexivity.
    + reflexivity.
    + reflexivity.
  - apply (Hp (Sample.processor (1 # 1000)) (Sample.image 33 33 200) "auto"%string 255%Q
             (Sample.alpha48 (1 # 1000)) 0 2303 (1 # 1000)%Q).
    + reflexivity.
    + reflexivity.
    + vm_compute. reflexivity.
    + reflexivity.
Defined.

(** C2, as the code has it.  In a pixel of the region of interest that lies
    in the image and whose effective alpha
    [alpha = min (entry * intensity, 0.99)] (for the processor
    [min (entry, 0.99)]) reaches the threshold 0.002, each colour channel
    that held [w] is set to an integer of [0, 255] nearest to
    [(w - alpha * 255) / (1 - alpha)] clamped to [0, 255]: always in
    WatermarkProcessor; in WatermarkEngine when the engine is ready and the
    origin of the region is not negative.  When the origin is negative in
    either axis the engine changes nothing.  With alpha-map entry 0.5,
    intensity 1 and [w = 200] the channel becomes 145. *)
Theorem inverse_blend_formula :
  (forall e c forceSize intensity am k i a w alpha,
     let config := Engine.selectConfig (c_width c) (c_height c) forceSize in
     Engine.ready e = true ->
     Engine.logoValue e = 255%Q ->
     Engine.alphaMapFor e config = Some am ->
     0 <= Engine.roiX c config -> 0 <= Engine.roiY c config ->
     roiEntry (c_width c) (Engine.roiX c config) (Engine.roiY c config)
       (Engine.logo_size config) k = Some i ->
     k mod 4 < 3 ->
     get (am_data am) i = Some a ->
     get (c_pixels c) k = Some w ->
     (alpha == Qmin (a * intensity) (99 # 100))%Q ->
     (2 # 1000 <= alpha)%Q ->
     exists v,
       get (c_pixels (Engine.process e c forceSize intensity).1) k = Some v /\
       nearest v (Qmax 0 (Qmin 255 ((inject_Z w - alpha * 255) / (1 - alpha)))) /\
       0 <= v <= 255 /\
       (a = (1 # 2)%Q -> intensity = 1%Q -> w = 200 -> v = 145)) /\
  (forall e c forceSize intensity k,
     let config := Engine.selectConfig (c_width c) (c_height c) forceSize in
     Engine.ready e = true ->
     Engine.roiX c config < 0 \/ Engine.roiY c config < 0 ->
     get (c_pixels (Engine.process e c forceSize intensity).1) k = get (c_pixels c) k) /\
  (forall p img mode am j i a w alpha,
     let config := Processor.getWatermarkConfig (width img) (height img) mode in
     Processor.wellFormed img ->
     Processor.alphaMapFor p config = Some am ->
     roiEntry (width img) (Processor.x config) (Processor.y config)
       (Processor.size config) j = Some i ->
     j mod 4 < 3 ->
     get (am_data am) i = Some a ->
     get (elems (data img)) j = Some w ->
     (alpha == Qmin a (99 # 100))%Q ->
     (2 # 1000 <= alpha)%Q ->
     exists img' v,
       Processor.process p img mode 255 = Return img' /\
       get (elems (data img')) j = Some v /\
       nearest v (Qmax 0 (Qmin 255 ((inject_Z w - alpha * 255) / (1 - alpha)))) /\
       0 <= v <= 255 /\
       (a = (1 # 2)%Q -> w = 200 -> v = 145)).
Proof.
  split; [|split].
  - intros e c fs intensity am k i a w alpha config Hr Hlv Ham Hx Hy Hroi Hch Ha Hw
      Halpha Hthr.
    assert (Heff : (Engine.effectiveAlpha a intensity == alpha)%Q).
    { unfold Engine.effectiveAlpha, MAX_ALPHA. by rewrite Math_min_Qmin, Halpha. }
    eexists. split.
    { by apply (Engine_process_get_colour e c fs intensity am k i a w). }
    rewrite Hlv, Engine_channelOut_restore
      by (cbv zeta; rewrite Heff; unfold ALPHA_THRESHOLD; lra).
    split.
    { apply (nearest_formula _ w _ alpha Heff).
      apply ToUint8Clamp_nearest, clamp255_range. }
    split; [apply ToUint8Clamp_range|].
    intros -> -> ->. reflexivity.
  - intros e c fs intensity k config Hr Hroi.
    by rewrite Engine_process_negative_roi.
  - intros p img mode am j i a w alpha config Hwf Ham Hroi Hch Ha Hw Halpha Hthr.
    assert (Hsafe : (Processor.safeAlpha a == alpha)%Q).
    { unfold Processor.safeAlpha, MAX_ALPHA. by rewrite Math_min_Qmin, Halpha. }
    assert (Hraw : (ALPHA_THRESHOLD <= a)%Q).
    { unfold ALPHA_THRESHOLD. rewrite Halpha in Hthr.
      destruct (Q.min_spec a (99 # 100)) as [[? E]|[? E]]; rewrite E in Hthr; lra. }
    destruct (Processor_process_get p img mode 255 am j i w Hwf Ham Hroi Hch Hw)
      as (img' & Hret & Hget).
    exists img'. eexists. split; [exact Hret|]. split; [exact Hget|].
    rewrite Ha, Processor_channelOut_restore by done.
    split.
    { apply (nearest_formula _ w _ alpha Hsafe). apply round_then_clamp_nearest. }
    split; [apply ToUint8Clamp_range|].
    intros -> ->. reflexivity.
Qed.

Lemma inverse_blend_formula_witness :
  (exists v,
     get (c_pixels (Engine.process (Sample.engine (1 # 2)) (Sample.canvas 160 160 200)
                      (Some LARGE) 1).1) 0 = Some v /\ v = 145) /\
  get (c_pixels (Engine.process (Sample.engine (1 # 2)) (Sample.canvas 100 60 200)
                   None 1).1) 80
  = get (c_pixels (Sample.canvas 100 60 200)) 80 /\
  (exists img' v,
     Processor.process (Sample.processor (1 # 2)) (Sample.image 33 33 200) "auto" 255
     = Return img' /\
     get (elems (data img')) 0 = Some v /\ v = 145).
Proof.
  destruct inverse_blend_formula as (He & Hb & Hp). split; [|split].
  - destruct (He (Sample.engine (1 # 2)) (Sample.canvas 160 160 200) (Some LARGE) 1%Q
                (Sample.alpha96 (1 # 2)) 0 0 (1 # 2)%Q 200 (1 # 2)%Q)
      as (v & Hget & _ & _ & Hv).
    + reflexivity.
    + reflexivity.
    + reflexivity.
    + vm_compute. discriminate.
    + vm_compute. discriminate.
    + reflexivity.
    + reflexivity.
    + reflexivity.
    + vm_compute. reflexivity.
    + vm_compute. reflexivity.
    + vm_compute. discriminate.
    + exists v. split; [exact Hget|]. apply Hv; reflexivity.
  - apply (Hb (Sample.engine (1 # 2)) (Sample.canvas 100 60 200) None 1%Q 80).
    + reflexivity.
    + right. vm_compute. reflexivity.
  - destruct (Hp (Sample.processor (1 # 2)) (Sample.image 33 33 200) "auto"%string
                (Sample.alpha48 (1 # 2)) 0 2303 (1 # 2)%Q 200 (1 # 2)%Q)
      as (img' & v & Hret & Hget & _ & _ & Hv).
    + vm_compute. repeat split; discriminate.
    + reflexivity.
    + reflexivity.
    + reflexivity.
    + vm_compute. reflexivity.
    + vm_compute. reflexivity.
    + vm_compute. reflexivity.
    + vm_compute. discriminate.
    + exists img', v. split; [exact Hret|]. split; [exact Hget|]. apply Hv; reflexivity.
Defined.

(** C2, as stated, fails for WatermarkEngine on an image too small for the
    placement.  On a 100 x 60 canvas (small placement, origin (20, -20)) the
    pixel (20, 0) lies in the region of interest and in the image; its
    alpha-map entry is 0.5, which passes the threshold, and its red channel
    holds 200.  A ready engine leaves 200 there, which is not the value 145
    of the formula; the processor stores 145. *)
Lemma engine_leaves_small_canvas_unrestored :
  let e := Sample.engine (1 # 2) in
  let c := Sample.canvas 100 60 200 in
  let config := Engine.selectConfig (c_width c) (c_height c) None in
  Engine.ready e = true /\
  Engine.roiX c config = 20 /\ Engine.roiY c config = -20 /\
  Engine.alphaMapFor e config = Some (Sample.alpha48 (1 # 2)) /\
  roiEntry (c_width c) (Engine.roiX c config) (Engine.roiY c config)
    (Engine.logo_size config) 80 = Some 960 /\
  get (am_data (Sample.alpha48 (1 # 2))) 960 = Some (1 # 2)%Q /\
  (2 # 1000 <= Qmin ((1 # 2) * 1) (99 # 100))%Q /\
  get (c_pixels c) 80 = Some 200 /\
  get (c_pixels (Engine.process e c None 1).1) 80 = Some 200 /\
  ~ nearest 200 (Qmax 0 (Qmin 255 ((inject_Z 200 - (1 # 2) * 255) / (1 - (1 # 2))))) /\
  (exists img',
     Processor.process (Sample.processor (1 # 2)) (Sample.image 100 60 200) "auto" 255
     = Return img' /\
     get (elems (data img')) 80 = Some 145).
Proof.
  cbv zeta.
  split; [reflexivity|]. split; [reflexivity|]. split; [reflexivity|].
  split; [reflexivity|]. split; [reflexivity|]. split; [vm_compute; reflexivity|].
  split; [vm_compute; discriminate|]. split; [vm_compute; reflexivity|].
  split; [vm_compute; reflexivity|]. split.
  - intros [_ H]. vm_compute in H. by apply H.
  - destruct (Processor_process_get (Sample.processor (1 # 2)) (Sample.image 100 60 200)
                "auto" 255 (Sample.alpha48 (1 # 2)) 80 960 200)
      as (img' & Hret & Hget);
      [ first [ vm_compute; reflexivity | vm_compute; repeat split; discriminate ] .. |].
    exists img'. split; [exact Hret|]. rewrite Hget. vm_compute. reflexivity.
Qed.

(** C1, as the code has it.  After a synthetic watermark
    [watermarked = round (original * (1 - alpha) + alpha * 255)] the
    restoration at intensity 1 leaves a colour channel of a pixel of the
    region of interest within [1/2 + 1 / (2 * (1 - alpha))] of the original
    when [0 <= alpha < 0.99], hence within 1 when [alpha < 2/3]: in
    WatermarkProcessor at every such pixel inside the image; in
    WatermarkEngine when the engine is ready and the origin of the region is
    not negative.  When the origin is negative in either axis the engine
    restores nothing: every entry keeps its watermarked value. *)
Theorem round_trip_within_tolerance :
  (forall e c forceSize am k i a original,
     let config := Engine.selectConfig (c_width c) (c_height c) forceSize in
     Engine.ready e = true ->
     Engine.logoValue e = 255%Q ->
     Engine.alphaMapFor e config = Some am ->
     0 <= Engine.roiX c config -> 0 <= Engine.roiY c config ->
     roiEntry (c_width c) (Engine.roiX c config) (Engine.roiY c config)
       (Engine.logo_size config) k = Some i ->
     k mod 4 < 3 ->
     get (am_data am) i = Some a ->
     (0 <= a)%Q -> (a < 99 # 100)%Q ->
     0 <= original <= 255 ->
     get (c_pixels c) k = Some (composite original a) ->
     exists v,
       get (c_pixels (Engine.process e c forceSize 1).1) k = Some v /\
       (- tolerance a <= inject_Z v - inject_Z original <= tolerance a)%Q /\
       ((a < 2 # 3)%Q -> Z.abs (v - original) <= 1)) /\
  (forall e c forceSize k a original,
     let config := Engine.selectConfig (c_width c) (c_height c) forceSize in
     Engine.ready e = true ->
     Engine.roiX c config < 0 \/ Engine.roiY c config < 0 ->
     get (c_pixels c) k = Some (composite original a) ->
     get (c_pixels (Engine.process e c forceSize 1).1) k
     = Some (composite original a)) /\
  (forall p img mode am j i a original,
     let config := Processor.getWatermarkConfig (width img) (height img) mode in
     Processor.wellFormed img ->
     Processor.alphaMapFor p config = Some am ->
     roiEntry (width img) (Processor.x config) (Processor.y config)
       (Processor.size config) j = Some i ->
     j mod 4 < 3 ->
     get (am_data am) i = Some a ->
     (0 <= a)%Q -> (a < 99 # 100)%Q ->
     0 <= original <= 255 ->
     get (elems (data img)) j = Some (composite original a) ->
     exists img' v,
       Processor.process p img mode 255 = Return img' /\
       get (elems (data img')) j = Some v /\
       (- tolerance a <= inject_Z v - inject_Z original <= tolerance a)%Q /\
       ((a < 2 # 3)%Q -> Z.abs (v - original) <= 1)).
Proof.
  split; [|split].
  - intros e c fs am k i a o config Hr Hlv Ham Hx Hy Hroi Hch Ha Ha0 Ha1 Ho Hw.
    eexists. split.
    { by apply (Engine_process_get_colour e c fs 1 am k i a (composite o a)). }
    rewrite Hlv.
    pose proof (Engine_channelOut_round_trip o a Ho Ha0 Ha1) as Hb. cbv zeta in Hb.
    split; [exact Hb|]. intros Hlt. by apply (tolerance_within_one _ _ a).
  - intros e c fs k a o config Hr Hroi Hw.
    by rewrite Engine_process_negative_roi.
  - intros p img mode am j i a o config Hwf Ham Hroi Hch Ha Ha0 Ha1 Ho Hw.
    destruct (Processor_process_get p img mode 255 am j i _ Hwf Ham Hroi Hch Hw)
      as (img' & Hret & Hget).
    exists img'. eexists. split; [exact Hret|]. split; [exact Hget|].
    rewrite Ha.
    pose proof (Processor_channelOut_round_trip o a Ho Ha0 Ha1) as Hb. cbv zeta in Hb.
    split; [exact Hb|]. intros Hlt. by apply (tolerance_within_one _ _ a).
Qed.

Lemma round_trip_within_tolerance_witness :
  (exists v,
     get (c_pixels (Engine.process (Sample.engine (1 # 2)) (Sample.canvas 80 80 178)
                      None 1).1) 0 = Some v /\
     Z.abs (v - 100) <= 1) /\
  get (c_pixels (Engine.process (Sample.engine (1 # 2)) (Sample.canvas 100 60 178)
                   None 1).1) 80 = Some (composite 100 (1 # 2)) /\
  (exists img' v,
     Processor.process (Sample.processor (1 # 2)) (Sample.image 33 33 178) "auto" 255
     = Return img' /\
     get (elems (data img')) 0 = Some v /\
     Z.abs (v - 100) <= 1).
Proof.
  destruct round_trip_within_tolerance as (He & Hb & Hp). split; [|split].
  - destruct (He (Sample.engine (1 # 2)) (Sample.canvas 80 80 178) None
                (Sample.alpha48 (1 # 2)) 0 0 (1 # 2)%Q 100)
      as (v & Hget & _ & Hv).
    + reflexivity.
    + reflexivity.
    + reflexivity.
    + vm_compute. discriminate.
    + vm_compute. discriminate.
    + reflexivity.
    + reflexivity.
    + reflexivity.
    + vm_compute. discriminate.
    + reflexivity.
    + lia.
    + vm_compute. reflexivity.
    + exists v. split; [exact Hget|]. apply Hv. reflexivity.
  - apply (Hb (Sample.engine (1 # 2)) (Sample.canvas 100 60 178) None 80 (1 # 2)%Q 100).
    + reflexivity.
    + right. vm_compute. reflexivity.
    + vm_compute. reflexivity.
  - destruct (Hp (Sample.processor (1 # 2)) (Sample.image 33 33 178) "auto"%string
                (Sample.alpha48 (1 # 2)) 0 2303 (1 # 2)%Q 100)
      as (img' & v & Hret & Hget & _ & Hv).
    + vm_compute. repeat split; discriminate.
    + reflexivity.
    + reflexivity.
    + reflexivity.
    + vm_compute. reflexivity.
    + vm_compute. discriminate.
    + reflexivity.
    + lia.
    + vm_compute. reflexivity.
    + exists img', v. split; [exact Hret|]. split; [exact Hget|]. apply Hv. reflexivity.
Defined.

(** C1, as stated, fails.  Take alpha 0.9 (below 0.99) and an original
    channel value of 101: the watermarked value is
    [round (101 * 0.1 + 0.9 * 255) = round 239.6 = 240], and both
    implementations restore [(240 - 229.5) / 0.1 = 105], which is 4 away
    from 101.  No other rounding of the watermarked value helps: at this
    alpha no 8-bit value is restored to within 1 of 101. *)
Lemma round_trip_fails_at_high_alpha :
  (9 # 10 < 99 # 100)%Q /\
  composite 101 (9 # 10) = 240 /\
  get (c_pixels (Sample.canvas 80 80 240)) 0 = Some 240 /\
  get (c_pixels (Engine.process (Sample.engine (9 # 10)) (Sample.canvas 80 80 240)
                   None 1).1) 0 = Some 105 /\
  (exists img',
     Processor.process (Sample.processor (9 # 10)) (Sample.image 33 33 240) "auto" 255
     = Return img' /\
     get (elems (data img')) 0 = Some 105) /\
  ~ Z.abs (105 - 101) <= 1 /\
  (forall w, 0 <= w <= 255 ->
     ~ Z.abs (Engine.channelOut 1 255 (9 # 10) w - 101) <= 1 /\
     ~ Z.abs (Processor.channelOut 255 (Some (9 # 10)%Q) w - 101) <= 1).
Proof.
  split; [reflexivity|]. split; [reflexivity|]. split; [vm_compute; reflexivity|].
  split; [|split; [|split; [lia|]]].
  3:{ assert (Hall : forallb
                (fun w => negb (Z.abs (Engine.channelOut 1 255 (9 # 10) w - 101) <=? 1)
                          && negb (Z.abs (Processor.channelOut 255 (Some (9 # 10)%Q) w - 101)
                                   <=? 1))
                (seqZ 0 256) = true) by (vm_compute; reflexivity).
      intros w Hw. rewrite forallb_forall in Hall.
      specialize (Hall w). rewrite <- list_elem_of_In, elem_of_seqZ in Hall.
      specialize (Hall ltac:(lia)).
      apply andb_prop in Hall as [H1 H2].
      apply negb_true_iff, Z.leb_gt in H1, H2. lia. }
  - rewrite (Engine_process_get_colour (Sample.engine (9 # 10)) (Sample.canvas 80 80 240)
               None 1 (Sample.alpha48 (9 # 10)) 0 0 (9 # 10) 240);
      first [ vm_compute; reflexivity | vm_compute; discriminate ].
  - destruct (Processor_process_get (Sample.processor (9 # 10)) (Sample.image 33 33 240)
                "auto" 255 (Sample.alpha48 (9 # 10)) 0 2303 240)
      as (img' & Hret & Hget);
      [ first [ vm_compute; reflexivity | vm_compute; repeat split; discriminate ] .. |].
    exists img'. split; [exact Hret|]. rewrite Hget. vm_compute. reflexivity.
Qed.

(** * Further properties *)

(** ** Every case of a call, entry by entry *)

Lemma Engine_process_no_map e c forceSize intensity :
  let config := Engine.selectConfig (c_width c) (c_height c) forceSize in
  Engine.alphaMapFor e config = None ->
  (Engine.process e c forceSize intensity).1 = c.
Proof.
  intros config Ham. unfold Engine.process.
  destruct (negb (Engine.ready e)); [done|]. fold config.
  destruct (_ || _); [done|].
  unfold Engine.alphaMapFor in Ham. by rewrite Ham.
Qed.

Lemma Engine_process_cases e c forceSize intensity k :
  let config := Engine.selectConfig (c_width c) (c_height c) forceSize in
  let c' := (Engine.process e c forceSize intensity).1 in
  get (c_pixels c') k = get (c_pixels c) k \/
  exists am i a w,
    Engine.ready e = true /\
    0 <= Engine.roiX c config /\ 0 <= Engine.roiY c config /\
    Engine.alphaMapFor e config = Some am /\
    roiEntry (c_width c) (Engine.roiX c config) (Engine.roiY c config)
      (Engine.logo_size config) k = Some i /\
    k mod 4 < 3 /\
    get (am_data am) i = Some a /\
    get (c_pixels c) k = Some w /\
    get (c_pixels c') k = Some (Engine.channelOut intensity (Engine.logoValue e) a w).
Proof.
  intros config c'. subst c'.
  destruct (Engine.ready e) eqn:Hr.
  2:{ left. unfold Engine.process. by rewrite Hr. }
  destruct (Z.ltb_spec (Engine.roiX c config) 0) as [Hx|Hx].
  { left. by rewrite Engine_process_negative_roi by (done || by left). }
  destruct (Z.ltb_spec (Engine.roiY c config) 0) as [Hy|Hy].
  { left. by rewrite Engine_process_negative_roi by (done || by right). }
  destruct (Engine.alphaMapFor e config) as [am|] eqn:Ham.
  2:{ left. by rewrite Engine_process_no_map. }
  rewrite (Engine_process_get e c forceSize intensity am k Hr Ham Hx Hy). fold config.
  destruct (roiEntry _ _ _ _ _) as [i|] eqn:Hroi; [|by left].
  destruct (Z.ltb_spec (k mod 4) 3) as [Hch|Hch]; [|by left].
  destruct (get (am_data am) i) as [a|] eqn:Ha; [|by left].
  destruct (get (c_pixels c) k) as [w|] eqn:Hw; [|by left].
  right. exists am, i, a, w. done.
Qed.

(** ** More arithmetic of the restoration formula *)

Lemma clamp255_le (x b : Q) : (0 <= b -> x <= b -> clamp255 x <= b)%Q.
Proof.
  unfold clamp255. intros Hb Hx.
  destruct (Math_min_spec 255 x) as [[? ->]|[? ->]].
  - destruct (Math_max_spec 0 255) as [[? ->]|[? ->]]; lra.
  - destruct (Math_max_spec 0 x) as [[? ->]|[? ->]]; lra.
Qed.

Lemma clamp255_negative (x : Q) : (x <= 0)%Q -> (clamp255 x == 0)%Q.
Proof.
  unfold clamp255. intros Hx.
  destruct (Math_min_spec 255 x) as [[? ->]|[? ->]]; [lra|].
  destruct (Math_max_spec 0 x) as [[? ->]|[? ->]]; lra.
Qed.

(** The formula at a white channel gives white again. *)
Lemma unblend_white (alpha : Q) : (alpha < 1)%Q -> (unblend 255 alpha 255 == 255)%Q.
Proof.
  intros Ha. unfold unblend. change (inject_Z 255) with 255%Q. field. lra.
Qed.

(** Removing a white overlay never brightens. *)
Lemma unblend_le (w : Z) (alpha : Q) :
  w <= 255 -> (0 <= alpha)%Q -> (alpha < 1)%Q ->
  (unblend w alpha 255 <= inject_Z w)%Q.
Proof.
  intros Hw Ha0 Ha1. unfold unblend.
  rewrite Zle_Qle in Hw. change (inject_Z 255) with 255%Q in Hw.
  apply Qle_shift_div_r; [lra|].
  assert (inject_Z w * alpha <= 255 * alpha)%Q by (apply Qmult_le_compat_r; lra).
  lra.
Qed.

(** At the largest alpha the formula is negative up to 252. *)
Lemma unblend_saturated (w : Z) (alpha : Q) :
  w <= 252 -> (99 # 100 <= alpha)%Q -> (alpha < 1)%Q ->
  (unblend w alpha 255 <= 0)%Q.
Proof.
  intros Hw Ha0 Ha1. unfold unblend.
  rewrite Zle_Qle in Hw. change (inject_Z 252) with 252%Q in Hw.
  apply Qle_shift_div_r; lra.
Qed.

Lemma nearest_le (v w : Z) (x : Q) : nearest v x -> (x <= inject_Z w)%Q -> v <= w.
Proof. intros [_ Hu] Hx. apply Zle_of_Qlt_succ. lra. Qed.

Lemma nearest_eq (v w : Z) (x : Q) : nearest v x -> (x == inject_Z w)%Q -> v = w.
Proof. intros Hn Hx. apply nearest_integer. by apply (nearest_proper v x). Qed.

(** The alpha of a restored channel lies between the two constants. *)
Lemma effectiveAlpha_restore_range (a intensity : Q) :
  lt (Engine.effectiveAlpha a intensity) ALPHA_THRESHOLD = false ->
  (2 # 1000 <= Engine.effectiveAlpha a intensity <= 99 # 100)%Q.
Proof.
  intros H%lt_false. pose proof (effectiveAlpha_le a intensity).
  unfold ALPHA_THRESHOLD, MAX_ALPHA in *. lra.
Qed.

Lemma safeAlpha_restore_range (a : Q) :
  lt a ALPHA_THRESHOLD = false ->
  (2 # 1000 <= Processor.safeAlpha a <= 99 # 100)%Q.
Proof.
  intros H%lt_false. pose proof (safeAlpha_le a). split; [|done].
  unfold Processor.safeAlpha.
  destruct (Math_min_spec a MAX_ALPHA) as [[? ->]|[? ->]];
    unfold ALPHA_THRESHOLD, MAX_ALPHA in *; lra.
Qed.

(** What the two implementations store in a channel: the value itself when
    the pixel is skipped, otherwise an integer nearest to the clamped
    formula at an alpha in [0.002, 0.99]; the processor stores 0 when the
    alpha map has no entry. *)
Lemma Engine_channelOut_cases intensity a w :
  let v := Engine.channelOut intensity 255 a w in
  let alpha := Engine.effectiveAlpha a intensity in
  ((alpha < 2 # 1000)%Q /\ v = w) \/
  ((2 # 1000 <= alpha <= 99 # 100)%Q /\ nearest v (clamp255 (unblend w alpha 255))).
Proof.
  intros v alpha. subst v. unfold Engine.channelOut. fold alpha.
  destruct (lt alpha ALPHA_THRESHOLD) eqn:Hlt.
  - left. apply lt_spec in Hlt. done.
  - right. split; [by apply effectiveAlpha_restore_range|].
    apply ToUint8Clamp_nearest, clamp255_range.
Qed.

Lemma Processor_channelOut_cases alpha w :
  let v := Processor.channelOut 255 alpha w in
  (alpha = None /\ v = 0) \/
  (exists a, alpha = Some a /\ (a < 2 # 1000)%Q /\ v = w) \/
  (exists a, alpha = Some a /\ (2 # 1000 <= a)%Q /\
     (2 # 1000 <= Processor.safeAlpha a <= 99 # 100)%Q /\
     nearest v (clamp255 (unblend w (Processor.safeAlpha a) 255))).
Proof.
  intros v. subst v. destruct alpha as [a|]; [|by left]. right.
  unfold Processor.channelOut.
  destruct (lt a ALPHA_THRESHOLD) eqn:Hlt.
  - left. exists a. apply lt_spec in Hlt. done.
  - right. exists a. split; [done|]. split; [by apply lt_false|].
    split; [by apply safeAlpha_restore_range|].
    apply round_then_clamp_nearest.
Qed.

Lemma Processor_process_cases p img mode lv j :
  let config := Processor.getWatermarkConfig (width img) (height img) mode in
  exists img',
    Processor.process p img mode lv = Return img' /\
    width img' = width img /\ height img' = height img /\
    length (elems (data img')) = length (elems (data img)) /\
    (get (elems (data img')) j = get (elems (data img)) j \/
     exists am i w,
       Processor.alphaMapFor p config = Some am /\
       roiEntry (width img) (Processor.x config) (Processor.y config)
         (Processor.size config) j = Some i /\
       j mod 4 < 3 /\
       get (elems (data img)) j = Some w /\
       get (elems (data img')) j = Some (Processor.channelOut lv (get (am_data am) i) w)).
Proof.
  intros config.
  destruct (Processor.alphaMapFor p config) as [am|] eqn:Ham.
  2:{ exists img. split; [|by auto].
      unfold Processor.process. fold config.
      unfold Processor.alphaMapFor in Ham. by rewrite Ham. }
  eexists. split; [by apply Processor_process_unfold|].
  cbn [width height data]. fold config.
  split; [done|]. split; [done|]. split; [apply Processor_loop_length|].
  rewrite Processor_loop_get_roi.
  destruct (roiEntry _ _ _ _ _) as [i|] eqn:Hroi; [|by left].
  destruct (Z.ltb_spec (j mod 4) 3) as [Hch|Hch].
  2:{ left. by rewrite andb_false_r. }
  destruct (_ && _); [|by left].
  destruct (get (elems (data img)) j) as [w|] eqn:Hw; [|by left].
  right. exists am, i, w. done.
Qed.

(** A position of the square has an entry in an alpha map that covers it. *)
Lemma roiEntry_range W x0 y0 s k i :
  roiEntry W x0 y0 s k = Some i -> 0 <= i < s * s.
Proof.
  unfold roiEntry.
  destruct (Z.leb_spec x0 ((k / 4) mod W)); [|done].
  destruct (Z.ltb_spec ((k / 4) mod W) (x0 + s)); [|done].
  destruct (Z.leb_spec y0 (k / 4 / W)); [|done].
  destruct (Z.ltb_spec (k / 4 / W) (y0 + s)); [|done].
  cbn [andb]. intros [= <-]. nia.
Qed.

Lemma get_in_range {A} (a : list A) (i : Z) :
  0 <= i < Z.of_nat (length a) -> exists v, get a i = Some v.
Proof.
  intros Hi. destruct (get a i) as [v|] eqn:E; [by exists v|].
  apply get_None in E. lia.
Qed.

Lemma Engine_channelOut_range intensity lv a w :
  Engine.channelOut intensity lv a w = w \/
  0 <= Engine.channelOut intensity lv a w <= 255.
Proof.
  unfold Engine.channelOut. destruct (lt _ _); [by left|]. right. apply ToUint8Clamp_range.
Qed.

Lemma Processor_channelOut_range lv alpha w :
  Processor.channelOut lv alpha w = w \/
  0 <= Processor.channelOut lv alpha w <= 255.
Proof.
  unfold Processor.channelOut.
  destruct (match alpha with Some a => lt a ALPHA_THRESHOLD | None => false end);
    [by left|]. right. apply ToUint8Clamp_range.
Qed.

(** ** Properties of the two implementations beyond the claims *)

Lemma Engine_channelOut_darkens intensity a w :
  0 <= w <= 255 -> 0 <= Engine.channelOut intensity 255 a w <= w.
Proof.
  intros Hw.
  destruct (Engine_channelOut_cases intensity a w) as [[_ ->] | [Ha Hn]]; [lia|].
  split.
  - destruct (Engine_channelOut_range intensity 255 a w) as [-> | H]; lia.
  - apply (nearest_le _ _ _ Hn).
    assert (Hq : (inject_Z 0 <= inject_Z w)%Q) by (rewrite <- Zle_Qle; lia).
    change (inject_Z 0) with 0%Q in Hq.
    apply clamp255_le; [done|]. apply unblend_le; [lia | lra | lra].
Qed.

Lemma Processor_channelOut_darkens alpha w :
  0 <= w <= 255 -> 0 <= Processor.channelOut 255 alpha w <= w.
Proof.
  intros Hw.
  destruct (Processor_channelOut_cases alpha w)
    as [[_ ->] | [(a & _ & _ & ->) | (a & _ & _ & Ha & Hn)]]; [lia | lia |].
  split.
  - destruct (Processor_channelOut_range 255 alpha w) as [-> | H]; lia.
  - apply (nearest_le _ _ _ Hn).
    assert (Hq : (inject_Z 0 <= inject_Z w)%Q) by (rewrite <- Zle_Qle; lia).
    change (inject_Z 0) with 0%Q in Hq.
    apply clamp255_le; [done|]. apply unblend_le; [lia | lra | lra].
Qed.

(** X2.  Removing the white overlay never brightens: with logo value 255,
    every entry of the bitmap that is in [0, 255] before a call is, after
    it, between 0 and its old value. *)
Theorem restoration_never_brightens :
  (forall e c forceSize intensity k w,
     Engine.logoValue e = 255%Q ->
     get (c_pixels c) k = Some w -> 0 <= w <= 255 ->
     exists v,
       get (c_pixels (Engine.process e c forceSize intensity).1) k = Some v /\
       0 <= v <= w) /\
  (forall p img mode j w,
     get (elems (data img)) j = Some w -> 0 <= w <= 255 ->
     exists img' v,
       Processor.process p img mode 255 = Return img' /\
       get (elems (data img')) j = Some v /\
       0 <= v <= w).
Proof.
  split.
  - intros e c fs intensity k w Hlv Hk Hw.
    destruct (Engine_process_cases e c fs intensity k)
      as [E | (am & i & a & w' & _ & _ & _ & _ & _ & _ & _ & Hw' & E)];
      rewrite E.
    + exists w. split; [done | lia].
    + rewrite Hk in Hw'. injection Hw' as <-. eexists. split; [done|].
      rewrite Hlv. by apply Engine_channelOut_darkens.
  - intros p img mode j w Hj Hw.
    destruct (Processor_process_cases p img mode 255 j)
      as (img' & Hret & _ & _ & _ & [E | (am & i & w' & _ & _ & _ & Hw' & E)]);
      exists img'.
    + exists w. rewrite E. split; [done|]. split; [done | lia].
    + rewrite Hj in Hw'. injection Hw' as <-. eexists. split; [done|]. split; [done|].
      by apply Processor_channelOut_darkens.
Qed.

Lemma restoration_never_brightens_witness :
  (exists v,
     get (c_pixels (Engine.process (Sample.engine (1 # 2)) (Sample.canvas 80 80 200)
                      None 1).1) 0 = Some v /\ 0 <= v <= 200) /\
  (exists img' v,
     Processor.process (Sample.processor (1 # 2)) (Sample.image 33 33 200) "auto" 255
     = Return img' /\
     get (elems (data img')) 0 = Some v /\ 0 <= v <= 200).
Proof.
  destruct restoration_never_brightens as [He Hp]. split.
  - apply (He (Sample.engine (1 # 2)) (Sample.canvas 80 80 200) None 1%Q 0 200).
    + reflexivity.
    + vm_compute. reflexivity.
    + lia.
  - apply (Hp (Sample.processor (1 # 2)) (Sample.image 33 33 200) "auto"%string 0 200).
    + vm_compute. reflexivity.
    + lia.
Defined.

Lemma Engine_channelOut_white intensity a :
  Engine.channelOut intensity 255 a 255 = 255.
Proof.
  destruct (Engine_channelOut_cases intensity a 255) as [[_ ->] | [Ha Hn]]; [done|].
  apply (nearest_eq _ _ _ Hn). change (inject_Z 255) with 255%Q.
  rewrite clamp255_id; rewrite unblend_white; lra.
Qed.

Lemma Processor_channelOut_white a :
  Processor.channelOut 255 (Some a) 255 = 255.
Proof.
  destruct (Processor_channelOut_cases (Some a) 255)
    as [[[=] _] | [(a' & _ & _ & ->) | (a' & [= <-] & _ & Ha & Hn)]]; [done|].
  apply (nearest_eq _ _ _ Hn). change (inject_Z 255) with 255%Q.
  rewrite clamp255_id; rewrite unblend_white; lra.
Qed.

(** X3.  A channel at 255 stays at 255.  In WatermarkEngine this holds for
    every entry of the canvas, whatever the alpha map and the intensity; in
    WatermarkProcessor it holds when the selected alpha map has an entry for
    every position of the square. *)
Theorem white_is_a_fixed_point :
  (forall e c forceSize intensity k,
     Engine.logoValue e = 255%Q ->
     get (c_pixels c) k = Some 255 ->
     get (c_pixels (Engine.process e c forceSize intensity).1) k = Some 255) /\
  (forall p img mode j,
     let config := Processor.getWatermarkConfig (width img) (height img) mode in
     (forall am, Processor.alphaMapFor p config = Some am ->
                 Processor.size config * Processor.size config
                 <= Z.of_nat (length (am_data am))) ->
     get (elems (data img)) j = Some 255 ->
     exists img',
       Processor.process p img mode 255 = Return img' /\
       get (elems (data img')) j = Some 255).
Proof.
  split.
  - intros e c fs intensity k Hlv Hk.
    destruct (Engine_process_cases e c fs intensity k)
      as [E | (am & i & a & w' & _ & _ & _ & _ & _ & _ & _ & Hw' & E)];
      rewrite E; [done|].
    rewrite Hk in Hw'. injection Hw' as <-.
    by rewrite Hlv, Engine_channelOut_white.
  - intros p img mode j config Hfull Hj.
    destruct (Processor_process_cases p img mode 255 j)
      as (img' & Hret & _ & _ & _ & [E | (am & i & w' & Ham & Hroi & _ & Hw' & E)]);
      exists img'; (split; [done|]); rewrite E; [done|].
    rewrite Hj in Hw'. injection Hw' as <-.
    apply roiEntry_range in Hroi. fold config in Hroi.
    destruct (get_in_range (am_data am) i) as [a ->].
    { specialize (Hfull am Ham). lia. }
    by rewrite Processor_channelOut_white.
Qed.

Lemma white_is_a_fixed_point_witness :
  get (c_pixels (Engine.process (Sample.engine (1 # 2)) (Sample.canvas 80 80 255)
                   None 1).1) 0 = Some 255 /\
  exists img',
    Processor.process (Sample.processor (1 # 2)) (Sample.image 33 33 255) "auto" 255
    = Return img' /\
    get (elems (data img')) 0 = Some 255.
Proof.
  destruct white_is_a_fixed_point as [He Hp]. split.
  - apply (He (Sample.engine (1 # 2)) (Sample.canvas 80 80 255) None 1%Q 0).
    + reflexivity.
    + vm_compute. reflexivity.
  - apply (Hp (Sample.processor (1 # 2)) (Sample.image 33 33 255) "auto"%string 0).
    + intros am Ham. vm_compute in Ham. injection Ham as <-. vm_compute. discriminate.
    + vm_compute. reflexivity.
Defined.

Lemma Engine_channelOut_saturated intensity a w :
  (99 # 100 <= a * intensity)%Q -> w <= 252 ->
  Engine.channelOut intensity 255 a w = 0.
Proof.
  intros Ha Hw.
  assert (Heff : (99 # 100 <= Engine.effectiveAlpha a intensity)%Q).
  { unfold Engine.effectiveAlpha.
    destruct (Math_min_spec (a * intensity) MAX_ALPHA) as [[? ->]|[? ->]];
      unfold MAX_ALPHA in *; lra. }
  destruct (Engine_channelOut_cases intensity a w) as [[Hlt _] | [Hr Hn]]; [lra|].
  apply (nearest_eq _ _ _ Hn). change (inject_Z 0) with 0%Q.
  apply clamp255_negative, unblend_saturated; [done | done | lra].
Qed.

Lemma Processor_channelOut_saturated a w :
  (99 # 100 <= a)%Q -> w <= 252 ->
  Processor.channelOut 255 (Some a) w = 0.
Proof.
  intros Ha Hw.
  destruct (Processor_channelOut_cases (Some a) w)
    as [[[=] _] | [(a' & [= <-] & Hlt & _) | (a' & [= <-] & _ & Hr & Hn)]]; [lra|].
  assert (Hsafe : (99 # 100 <= Processor.safeAlpha a)%Q).
  { unfold Processor.safeAlpha.
    destruct (Math_min_spec a MAX_ALPHA) as [[? ->]|[? ->]];
      unfold MAX_ALPHA in *; lra. }
  apply (nearest_eq _ _ _ Hn). change (inject_Z 0) with 0%Q.
  apply clamp255_negative, unblend_saturated; [done | done | lra].
Qed.

(** X4.  Where the watermark is opaque the original cannot be recovered:
    a colour channel of a pixel of the region inside the image that holds at
    most 252 is set to 0 when the alpha used reaches the clamp 0.99.  For
    WatermarkEngine this needs a ready engine, logo value 255, the alpha map
    of the placement loaded, alpha-map entry times intensity at least 0.99,
    and an origin of the region that is not negative in either axis (a
    smaller image is left as it is).  For WatermarkProcessor it needs a
    well-formed image, the alpha map of the placement loaded and an
    alpha-map entry of at least 0.99. *)
Theorem opaque_watermark_blacks_out :
  (forall e c forceSize intensity am k i a w,
     let config := Engine.selectConfig (c_width c) (c_height c) forceSize in
     Engine.ready e = true ->
     Engine.logoValue e = 255%Q ->
     Engine.alphaMapFor e config = Some am ->
     0 <= Engine.roiX c config -> 0 <= Engine.roiY c config ->
     roiEntry (c_width c) (Engine.roiX c config) (Engine.roiY c config)
       (Engine.logo_size config) k = Some i ->
     k mod 4 < 3 ->
     get (am_data am) i = Some a ->
     (99 # 100 <= a * intensity)%Q ->
     get (c_pixels c) k = Some w -> w <= 252 ->
     get (c_pixels (Engine.process e c forceSize intensity).1) k = Some 0) /\
  (forall p img mode am j i a w,
     let config := Processor.getWatermarkConfig (width img) (height img) mode in
     Processor.wellFormed img ->
     Processor.alphaMapFor p config = Some am ->
     roiEntry (width img) (Processor.x config) (Processor.y config)
       (Processor.size config) j = Some i ->
     j mod 4 < 3 ->
     get (am_data am) i = Some a ->
     (99 # 100 <= a)%Q ->
     get (elems (data img)) j = Some w -> w <= 252 ->
     exists img',
       Processor.process p img mode 255 = Return img' /\
       get (elems (data img')) j = Some 0).
Proof.
  split.
  - intros e c fs intensity am k i a w config Hr Hlv Ham Hx Hy Hroi Hch Ha Hsat Hk Hw.
    rewrite (Engine_process_get_colour e c fs intensity am k i a w) by done.
    by rewrite Hlv, Engine_channelOut_saturated.
  - intros p img mode am j i a w config Hwf Ham Hroi Hch Ha Hsat Hj Hw.
    destruct (Processor_process_get p img mode 255 am j i w Hwf Ham Hroi Hch Hj)
      as (img' & Hret & Hget).
    exists img'. split; [done|].
    by rewrite Hget, Ha, Processor_channelOut_saturated.
Qed.

Lemma opaque_watermark_blacks_out_witness :
  get (c_pixels (Engine.process (Sample.engine 1) (Sample.canvas 80 80 200) None 1).1) 0
  = Some 0 /\
  exists img',
    Processor.process (Sample.processor 1) (Sample.image 33 33 200) "auto" 255
    = Return img' /\
    get (elems (data img')) 0 = Some 0.
Proof.
  destruct opaque_watermark_blacks_out as [He Hp]. split.
  - apply (He (Sample.engine 1) (Sample.canvas 80 80 200) None 1%Q
             (Sample.alpha48 1) 0 0 1%Q 200).
    + reflexivity.
    + reflexivity.
    + reflexivity.
    + vm_compute. discriminate.
    + vm_compute. discriminate.
    + reflexivity.
    + reflexivity.
    + reflexivity.
    + vm_compute. discriminate.
    + vm_compute. reflexivity.
    + lia.
  - apply (Hp (Sample.processor 1) (Sample.image 33 33 200) "auto"%string
             (Sample.alpha48 1) 0 2303 1%Q 200).
    + vm_compute. repeat split; discriminate.
    + reflexivity.
    + reflexivity.
    + reflexivity.
    + vm_compute. reflexivity.
    + vm_compute. discriminate.
    + vm_compute. reflexivity.
    + lia.
Defined.

(** X5.  A position of the region for which the alpha map has no entry (a
    map shorter than the square).  WatermarkEngine never visits it: the
    pixel keeps its value.  WatermarkProcessor reads [undefined], computes
    [NaN] and stores it: the three colour channels become 0. *)
Theorem missing_alpha_entry :
  (forall e c forceSize intensity am k i,
     let config := Engine.selectConfig (c_width c) (c_height c) forceSize in
     Engine.alphaMapFor e config = Some am ->
     roiEntry (c_width c) (Engine.roiX c config) (Engine.roiY c config)
       (Engine.logo_size config) k = Some i ->
     get (am_data am) i = None ->
     get (c_pixels (Engine.process e c forceSize intensity).1) k = get (c_pixels c) k) /\
  (forall p img mode logoValue am j i w,
     let config := Processor.getWatermarkConfig (width img) (height img) mode in
     Processor.wellFormed img ->
     Processor.alphaMapFor p config = Some am ->
     roiEntry (width img) (Processor.x config) (Processor.y config)
       (Processor.size config) j = Some i ->
     j mod 4 < 3 ->
     get (am_data am) i = None ->
     get (elems (data img)) j = Some w ->
     exists img',
       Processor.process p img mode logoValue = Return img' /\
       get (elems (data img')) j = Some 0).
Proof.
  split.
  - intros e c fs intensity am k i config Ham Hroi Ha.
    destruct (Engine_process_cases e c fs intensity k)
      as [E | (am' & i' & a & w' & _ & _ & _ & Ham' & Hroi' & _ & Ha' & _ & _)];
      [done|].
    fold config in Ham', Hroi'. congruence.
  - intros p img mode lv am j i w config Hwf Ham Hroi Hch Ha Hj.
    destruct (Processor_process_get p img mode lv am j i w Hwf Ham Hroi Hch Hj)
      as (img' & Hret & Hget).
    exists img'. split; [done|]. by rewrite Hget, Ha.
Qed.

Lemma missing_alpha_entry_witness :
  get (c_pixels
         (Engine.process
            {| Engine.alphaMaps_small := Some (mkAlphaMap 48 48 []);
               Engine.alphaMaps_large := None;
               Engine.ready := true; Engine.logoValue := 255 |}
            (Sample.canvas 80 80 200) None 1).1) 0
  = get (c_pixels (Sample.canvas 80 80 200)) 0 /\
  exists img',
    Processor.process
      {| Processor.alphaMap48 := Some (mkAlphaMap 48 48 []);
         Processor.alphaMap96 := None; Processor.isReady := false |}
      (Sample.image 33 33 200) "auto" 255
    = Return img' /\
    get (elems (data img')) 0 = Some 0.
Proof.
  destruct missing_alpha_entry as [He Hp]. split.
  - apply (He {| Engine.alphaMaps_small := Some (mkAlphaMap 48 48 []);
                 Engine.alphaMaps_large := None;
                 Engine.ready := true; Engine.logoValue := 255 |}
             (Sample.canvas 80 80 200) None 1%Q (mkAlphaMap 48 48 []) 0 0).
    + reflexivity.
    + reflexivity.
    + reflexivity.
  - apply (Hp {| Processor.alphaMap48 := Some (mkAlphaMap 48 48 []);
                 Processor.alphaMap96 := None; Processor.isReady := false |}
             (Sample.image 33 33 200) "auto"%string 255%Q (mkAlphaMap 48 48 []) 0 2303 200).
    + vm_compute. repeat split; discriminate.
    + reflexivity.
    + reflexivity.
    + reflexivity.
    + reflexivity.
    + vm_compute. reflexivity.
Defined.

(** X6.  At intensity 0 a call of WatermarkEngine.process changes nothing:
    the canvas after the call is the canvas before it. *)
Theorem zero_intensity_is_identity (e : Engine.t) (c : Canvas)
  (forceSize : option WATERMARK_SIZE) :
  (Engine.process e c forceSize 0).1 = c.
Proof.
  destruct (Engine_process_dims e c forceSize 0) as (Hw & Hh & Hl).
  destruct ((Engine.process e c forceSize 0).1) as [w' h' px'] eqn:Hc'.
  destruct c as [w h px]. cbn [c_width c_height c_pixels] in *. subst w' h'. f_equal.
  apply list_eq. intros n. rewrite <- !get_of_nat.
  change px' with (c_pixels (mkCanvas w h px')). rewrite <- Hc'.
  destruct (Engine_process_cases e (mkCanvas w h px) forceSize 0 (Z.of_nat n))
    as [E | (am & i & a & w' & _ & _ & _ & _ & _ & _ & _ & Hw' & E)];
    rewrite E; [done|].
  cbn [c_pixels] in Hw'. rewrite Hw'. f_equal.
  apply Engine_channelOut_skip. unfold ALPHA_THRESHOLD. lra.
Qed.

Lemma config_correspondence (c : Canvas) (forceSize : option WATERMARK_SIZE) :
  let ce := Engine.selectConfig (c_width c) (c_height c) forceSize in
  let cp := Processor.getWatermarkConfig (c_width c) (c_height c) (forceModeOf forceSize) in
  Engine.logo_size ce = Processor.size cp /\
  Engine.size ce = Processor.size cp /\
  Engine.margin_right ce = Processor.margin cp /\
  Engine.margin_bottom ce = Processor.margin cp /\
  Engine.roiX c ce = Processor.x cp /\
  Engine.roiY c ce = Processor.y cp.
Proof.
  unfold Engine.roiX, Engine.roiY, Engine.selectConfig, Engine.getWatermarkConfig,
    Processor.getWatermarkConfig.
  destruct forceSize as [[]|]; cbn; [done | done |].
  destruct (_ && _); cbn; done.
Qed.

(** X7.  The two implementations place the watermark alike: for
    corresponding size requests they choose the same logo size, the same
    margins and the same origin of the region of interest.  A [forceMode]
    that is neither "48" nor "96" is treated by WatermarkProcessor as
    automatic. *)
Theorem placements_agree (c : Canvas) (forceSize : option WATERMARK_SIZE) :
  let ce := Engine.selectConfig (c_width c) (c_height c) forceSize in
  let cp := Processor.getWatermarkConfig (c_width c) (c_height c) (forceModeOf forceSize) in
  (Engine.logo_size ce = Processor.size cp /\
   Engine.size ce = Processor.size cp /\
   Engine.margin_right ce = Processor.margin cp /\
   Engine.margin_bottom ce = Processor.margin cp /\
   Engine.roiX c ce = Processor.x cp /\
   Engine.roiY c ce = Processor.y cp) /\
  (forall mode : string,
     mode <> "48"%string -> mode <> "96"%string ->
     Processor.getWatermarkConfig (c_width c) (c_height c) mode
     = Processor.getWatermarkConfig (c_width c) (c_height c) "auto").
Proof.
  split.
  - unfold Engine.roiX, Engine.roiY, Engine.selectConfig, Engine.getWatermarkConfig,
      Processor.getWatermarkConfig.
    destruct forceSize as [[]|]; cbn; [done | done |].
    destruct (_ && _); cbn; done.
  - intros mode H48 H96. unfold Processor.getWatermarkConfig.
    apply String.eqb_neq in H48, H96. rewrite H48, H96. done.
Qed.

Lemma placements_agree_witness :
  Processor.getWatermarkConfig 2000 2000 "large"
  = Processor.getWatermarkConfig 2000 2000 "auto".
Proof.
  apply (proj2 (placements_agree (mkCanvas 2000 2000 []) None) "large"%string);
    discriminate.
Defined.

Lemma effectiveAlpha_safeAlpha (a : Q) :
  (Engine.effectiveAlpha a 1 == Processor.safeAlpha a)%Q.
Proof.
  unfold Engine.effectiveAlpha, Processor.safeAlpha.
  destruct (Math_min_spec (a * 1) MAX_ALPHA) as [[? ->]|[? ->]];
    destruct (Math_min_spec a MAX_ALPHA) as [[? ->]|[? ->]]; lra.
Qed.

Lemma nearest_close (v v' : Z) (x y : Q) :
  nearest v x -> nearest v' y -> (x == y)%Q -> Z.abs (v - v') <= 1.
Proof.
  intros [Hl Hu] [Hl' Hu'] E.
  apply (Zabs_le_1_of_Q v v' 1); lra.
Qed.

(** One channel: the two implementations agree up to the rounding of a
    tie. *)
Lemma channelOut_agree (a : Q) (w : Z) :
  Z.abs (Engine.channelOut 1 255 a w - Processor.channelOut 255 (Some a) w) <= 1.
Proof.
  pose proof (effectiveAlpha_safeAlpha a) as Heq.
  assert (Hs : (Processor.safeAlpha a < 2 # 1000 <-> a < 2 # 1000)%Q).
  { unfold Processor.safeAlpha.
    destruct (Math_min_spec a MAX_ALPHA) as [[? ->]|[? ->]]; unfold MAX_ALPHA in *; lra. }
  destruct (Engine_channelOut_cases 1 a w) as [[Hlt ->] | [Hr Hn]];
    destruct (Processor_channelOut_cases (Some a) w)
      as [[[=] _] | [(a' & [= <-] & Hlt' & ->) | (a' & [= <-] & Hge & Hr' & Hn')]].
  - lia.
  - exfalso. rewrite Heq in Hlt. apply Hs in Hlt. lra.
  - exfalso. apply Hs in Hlt'. lra.
  - apply (nearest_close _ _ _ _ Hn Hn'). by apply clamp255_proper, unblend_proper.
Qed.

(** X8.  On an image large enough for the placement, with the same alpha
    maps (complete for the square), logo value 255 and intensity 1, the two
    implementations leave bitmaps of the same size that differ by at most 1
    in every entry (the engine's store rounds a tie to even, [Math.round]
    of the processor rounds it up). *)
Theorem implementations_agree_within_one :
  forall e p c img forceSize,
     let config := Engine.selectConfig (c_width c) (c_height c) forceSize in
     Engine.ready e = true ->
     Engine.logoValue e = 255%Q ->
     Engine.alphaMaps_small e = Processor.alphaMap48 p ->
     Engine.alphaMaps_large e = Processor.alphaMap96 p ->
     (forall am, Engine.alphaMapFor e config = Some am ->
                 Engine.logo_size config * Engine.logo_size config
                 <= Z.of_nat (length (am_data am))) ->
     c_width c = width img -> c_height c = height img ->
     c_pixels c = elems (data img) ->
     Processor.wellFormed img ->
     0 <= Engine.roiX c config -> 0 <= Engine.roiY c config ->
     exists img',
       Processor.process p img (forceModeOf forceSize) 255 = Return img' /\
       length (elems (data img'))
       = length (c_pixels (Engine.process e c forceSize 1).1) /\
       forall k v v',
         get (c_pixels (Engine.process e c forceSize 1).1) k = Some v ->
         get (elems (data img')) k = Some v' ->
         Z.abs (v - v') <= 1.
Proof.
  intros e p c img fs config Hr Hlv Hsmall Hlarge Hfull HW HH Hpx Hwf Hx Hy.
  destruct (config_correspondence c fs) as (Hs & Hsz & _ & _ & Hpx0 & Hpy0).
  fold config in Hs, Hsz, Hpx0, Hpy0. rewrite HW, HH in Hs, Hsz, Hpx0, Hpy0.
  set (cp := Processor.getWatermarkConfig (width img) (height img) (forceModeOf fs)) in *.
  assert (Hmaps : Processor.alphaMapFor p cp = Engine.alphaMapFor e config).
  { unfold Processor.alphaMapFor, Engine.alphaMapFor. by rewrite <- Hsz, Hsmall, Hlarge. }
  destruct (Engine_process_dims e c fs 1) as (_ & _ & Hlen).
  destruct (Engine.alphaMapFor e config) as [am|] eqn:Ham.
  2:{ exists img. split.
      { unfold Processor.process. fold cp. unfold Processor.alphaMapFor in Hmaps.
        by rewrite Hmaps. }
      rewrite Hlen, Hpx. split; [done|].
      intros k v v'. rewrite Engine_process_no_map by done. rewrite Hpx.
      intros -> [= ->]. lia. }
  eexists. split; [by apply Processor_process_unfold|].
  cbn [data]. fold cp. rewrite Processor_loop_length, Hlen, Hpx. split; [done|].
  intros k v v'.
  rewrite (Engine_process_get e c fs 1 am k Hr Ham Hx Hy). fold config.
  rewrite Processor_loop_get_roi.
  rewrite <- Hpx0, <- Hpy0, <- Hs, <- HW, Hpx.
  destruct (get (elems (data img)) k) as [w|] eqn:Hk.
  2:{ destruct (roiEntry _ _ _ _ _); [|done].
      destruct (_ <? _); [|done]. by destruct (get (am_data am) _). }
  rewrite HW. rewrite (wellFormed_entry img k w Hwf Hk). cbn [andb]. rewrite <- HW.
  destruct (roiEntry _ _ _ _ _) as [i|] eqn:Hroi.
  2:{ intros [= <-] [= <-]. lia. }
  destruct (k mod 4 <? 3).
  2:{ intros [= <-] [= <-]. lia. }
  apply roiEntry_range in Hroi.
  destruct (get_in_range (am_data am) i) as [a ->].
  { specialize (Hfull am eq_refl). lia. }
  cbn [fmap option_fmap option_map]. intros [= <-] [= <-].
  rewrite Hlv. apply channelOut_agree.
Qed.

Lemma implementations_agree_within_one_witness :
  get (c_pixels (Engine.process (Sample.engine (1 # 2)) (Sample.canvas 80 80 200)
                   None 1).1) 0 = Some 145 /\
  exists img',
    Processor.process (Sample.processor (1 # 2)) (Sample.image 80 80 200) "auto" 255
    = Return img' /\
    get (elems (data img')) 0 = Some 145 /\
    Z.abs (145 - 145) <= 1.
Proof.
  assert (H1 : get (c_pixels (Engine.process (Sample.engine (1 # 2))
                                (Sample.canvas 80 80 200) None 1).1) 0 = Some 145).
  { rewrite (Engine_process_get_colour (Sample.engine (1 # 2)) (Sample.canvas 80 80 200)
               None 1 (Sample.alpha48 (1 # 2)) 0 0 (1 # 2) 200);
      first [ vm_compute; reflexivity | vm_compute; discriminate ]. }
  split; [exact H1|].
  destruct (implementations_agree_within_one
              (Sample.engine (1 # 2)) (Sample.processor (1 # 2))
              (Sample.canvas 80 80 200) (Sample.image 80 80 200) None)
    as (img' & Hret & _ & Hall).
  - reflexivity.
  - reflexivity.
  - reflexivity.
  - reflexivity.
  - intros am Ham. vm_compute in Ham. injection Ham as <-. vm_compute. discriminate.
  - reflexivity.
  - reflexivity.
  - reflexivity.
  - vm_compute. repeat split; discriminate.
  - vm_compute. discriminate.
  - vm_compute. discriminate.
  - destruct (Processor_process_get (Sample.processor (1 # 2)) (Sample.image 80 80 200)
                "auto" 255 (Sample.alpha48 (1 # 2)) 0 0 200)
      as (img'' & Hret' & Hget);
      [ first [ vm_compute; reflexivity | vm_compute; repeat split; discriminate ] .. |].
    cbn [forceModeOf] in Hret. rewrite Hret in Hret'. injection Hret' as <-.
    assert (H2 : get (elems (data img')) 0 = Some 145) by (rewrite Hget; vm_compute; reflexivity).
    exists img'. split; [exact Hret|]. split; [exact H2|].
    exact (Hall 0 145 145 H1 H2).
Defined.

(** ** The stores of the engine's loop *)

Lemma Engine_step_intact intensity lv n dr d i a :
  0 <= i -> 4 * i + 4 <= Z.of_nat n ->
  intact n dr d -> intact n dr (Engine.step intensity lv d (i, a)).
Proof.
  intros Hi Hn Hd. unfold Engine.step. cbn [fst snd].
  destruct (lt _ _); [done|].
  repeat match goal with
         | |- intact n dr (set ?d ?j ?v) =>
             cut (intact n dr d);
             [ intros [Hl Hdr]; split;
               [ by rewrite length_set | rewrite set_in_range; [done | lia] ] | ]
         end.
  done.
Qed.

Lemma Engine_loop_intact intensity lv n dr alphas : forall i d,
  0 <= i -> 4 * (i + Z.of_nat (length alphas)) <= Z.of_nat n ->
  intact n dr d -> intact n dr (Engine.loop intensity lv alphas i d).
Proof.
  induction alphas as [|a rest IH]; intros i d Hi Hn Hd; cbn [Engine.loop]; [done|].
  cbn [length] in Hn. apply IH; [lia | lia |].
  apply Engine_step_intact; [lia | lia | done].
Qed.

Lemma getImageData_length c sx sy sw sh :
  length (elems (data (getImageData c sx sy sw sh))) = Z.to_nat (4 * sw * sh).
Proof.
  unfold getImageData. cbn [data elems]. by rewrite length_fmap, length_seqZ.
Qed.

(** X9.  The loop of WatermarkEngine.process runs over the alpha map, not
    over the region: as long as the alpha map has at most as many entries as
    the square has pixels (48 x 48 or 96 x 96), none of its stores falls
    outside the buffer read from the canvas, and the buffer keeps its
    size. *)
Theorem engine_stores_stay_in_roi
  (c : Canvas) (sx sy s : Z) (intensity logoValue : Q) (alphas : list Q) :
  0 <= s ->
  Z.of_nat (length alphas) <= s * s ->
  let d := Engine.loop intensity logoValue alphas 0 (data (getImageData c sx sy s s)) in
  dropped d = [] /\ Z.of_nat (length (elems d)) = 4 * s * s.
Proof.
  intros Hs Hlen d.
  destruct (Engine_loop_intact intensity logoValue (Z.to_nat (4 * s * s)) [] alphas 0
              (data (getImageData c sx sy s s))) as [Hl Hd].
  - lia.
  - nia.
  - split; [apply getImageData_length | done].
  - subst d. split; [done|]. rewrite Hl. nia.
Qed.

Lemma engine_stores_stay_in_roi_witness :
  dropped (Engine.loop 1 255 (am_data (Sample.alpha48 (1 # 2))) 0
             (data (getImageData (Sample.canvas 80 80 200) 0 0 48 48))) = [].
Proof.
  apply (engine_stores_stay_in_roi (Sample.canvas 80 80 200) 0 0 48 1 255
           (am_data (Sample.alpha48 (1 # 2)))).
  - lia.
  - vm_compute. discriminate.
Defined.

(** ** The alpha map of a reference bitmap *)

Lemma alphaOfPixels_ind (P : list Z -> Prop) :
  P [] -> (forall r, P [r]) -> (forall r g, P [r; g]) -> (forall r g b, P [r; g; b]) ->
  (forall r g b x rest, P rest -> P (r :: g :: b :: x :: rest)) ->
  forall d, P d.
Proof.
  intros H0 H1 H2 H3 H4.
  fix IH 1. intros [|r [|g [|b [|x rest]]]];
    [apply H0 | apply H1 | apply H2 | apply H3 | apply H4, IH].
Qed.

Lemma alphaOfPixels_length (d : list Z) :
  Z.of_nat (length (alphaOfPixels d)) = Z.of_nat (length d) / 4.
Proof.
  induction d as [ | | | |r g b x rest IH] using alphaOfPixels_ind; try reflexivity.
  cbn [alphaOfPixels length]. rewrite !Nat2Z.inj_succ, IH.
  Z.to_euclidean_division_equations. lia.
Qed.

Lemma alphaOfPixels_get (d : list Z) : forall i r g b x,
  get d (4 * i) = Some r -> get d (4 * i + 1) = Some g ->
  get d (4 * i + 2) = Some b -> get d (4 * i + 3) = Some x ->
  get (alphaOfPixels d) i = Some (inject_Z (Z.max r (Z.max g b)) / 255)%Q.
Proof.
  induction d as [ |r0|r0 g0|r0 g0 b0|r0 g0 b0 x0 rest IH] using alphaOfPixels_ind;
    intros i r g b x Hr Hg Hb Hx.
  1-4: apply get_range in Hr, Hx; cbn [length] in *; lia.
  apply get_range in Hr as Hi.
  destruct (Z.eq_dec i 0) as [->|Hne].
  - cbn in Hr, Hg, Hb. injection Hr as <-. injection Hg as <-. injection Hb as <-. done.
  - cbn [alphaOfPixels].
    replace i with (i - 1 + 1) by lia. rewrite get_cons_succ by lia.
    apply (IH (i - 1) r g b x).
    + replace (4 * i) with (4 * (i - 1) + 1 + 1 + 1 + 1) in Hr by lia.
      by rewrite !get_cons_succ in Hr by lia.
    + replace (4 * i + 1) with (4 * (i - 1) + 1 + 1 + 1 + 1 + 1) in Hg by lia.
      by rewrite !get_cons_succ in Hg by lia.
    + replace (4 * i + 2) with (4 * (i - 1) + 2 + 1 + 1 + 1 + 1) in Hb by lia.
      by rewrite !get_cons_succ in Hb by lia.
    + replace (4 * i + 3) with (4 * (i - 1) + 3 + 1 + 1 + 1 + 1) in Hx by lia.
      by rewrite !get_cons_succ in Hx by lia.
Qed.

Lemma alphaOfPixels_range (d : list Z) :
  Forall (fun v => 0 <= v <= 255) d ->
  Forall (fun a => 0 <= a <= 1)%Q (alphaOfPixels d).
Proof.
  induction d as [ | | | |r g b x rest IH] using alphaOfPixels_ind;
    intros Hd; try by constructor.
  cbn [alphaOfPixels].
  apply Forall_cons in Hd as [Hr Hd]. apply Forall_cons in Hd as [Hg Hd].
  apply Forall_cons in Hd as [Hb Hd]. apply Forall_cons in Hd as [_ Hd].
  constructor; [|by apply IH].
  assert (Hm : 0 <= Z.max r (Z.max g b) <= 255) by lia.
  destruct Hm as [Hm0 Hm1]. rewrite Zle_Qle in Hm0, Hm1.
  change (inject_Z 0) with 0%Q in Hm0. change (inject_Z 255) with 255%Q in Hm1.
  split; [apply Qle_shift_div_l | apply Qle_shift_div_r]; lra.
Qed.

(** X10.  The alpha map computed from a reference bitmap of
    [width * height] RGBA pixels with 8-bit channels has the dimensions of
    the bitmap and one entry per pixel, every entry lies in [0, 1], and the
    entry of pixel [i] is [max(R, G, B) / 255]; the alpha channel of the
    bitmap plays no part. *)
Theorem alpha_map_of_bitmap (img : Image) :
  Z.of_nat (length (img_data img)) = 4 * img_width img * img_height img ->
  Forall (fun v => 0 <= v <= 255) (img_data img) ->
  let am := calculateAlphaMap img in
  am_width am = img_width img /\ am_height am = img_height img /\
  Z.of_nat (length (am_data am)) = img_width img * img_height img /\
  Forall (fun a => 0 <= a <= 1)%Q (am_data am) /\
  (forall i r g b x,
     get (img_data img) (4 * i) = Some r ->
     get (img_data img) (4 * i + 1) = Some g ->
     get (img_data img) (4 * i + 2) = Some b ->
     get (img_data img) (4 * i + 3) = Some x ->
     get (am_data am) i = Some (inject_Z (Z.max r (Z.max g b)) / 255)%Q).
Proof.
  intros Hlen Hrange am. subst am. unfold calculateAlphaMap. cbn [am_width am_height am_data].
  split; [done|]. split; [done|]. split; [|split].
  - rewrite alphaOfPixels_length, Hlen.
    replace (4 * img_width img * img_height img) with (img_width img * img_height img * 4) by lia.
    apply Z.div_mul. lia.
  - by apply alphaOfPixels_range.
  - apply alphaOfPixels_get.
Qed.

Lemma alpha_map_of_bitmap_witness :
  get (am_data (calculateAlphaMap (mkImage 1 1 [10; 51; 30; 255]))) 0
  = Some (inject_Z (Z.max 10 (Z.max 51 30)) / 255)%Q.
Proof.
  apply (alpha_map_of_bitmap (mkImage 1 1 [10; 51; 30; 255])) with (x := 255).
  - reflexivity.
  - repeat constructor; discriminate.
  - reflexivity.
  - reflexivity.
  - reflexivity.
  - reflexivity.
Defined.

(** ** Initialization *)

(** X11.  [WatermarkEngine.init] makes the engine ready exactly when both
    reference images load, and then returns normally; otherwise it throws.
    Once [init] has succeeded [process] never throws, whatever the canvas,
    the size request and the intensity. *)
Theorem engine_init_then_process (e : Engine.t) (smallImg largeImg : option Image) :
  Engine.ready e = false ->
  let r := Engine.init e smallImg largeImg in
  (Engine.ready r.1 = true <-> exists s l, smallImg = Some s /\ largeImg = Some l) /\
  (r.2 = Return tt <-> Engine.ready r.1 = true) /\
  (Engine.ready r.1 = true ->
   forall c forceSize intensity,
     (Engine.process r.1 c forceSize intensity).2 = Return tt).
Proof.
  intros He r. subst r. unfold Engine.init.
  destruct smallImg as [s|], largeImg as [l|]; cbn [fst snd Engine.ready].
  - split; [split; eauto|]. split; [done|]. intros _ c fs intensity.
    unfold Engine.process. cbn [Engine.ready negb Engine.alphaMaps_small Engine.alphaMaps_large].
    destruct (_ || _); [done|]. by destruct (_ =? _).
  - rewrite He. split; [split; [done | by intros (? & ? & _ & [=])]|]. done.
  - rewrite He. split; [split; [done | by intros (? & ? & [=] & _)]|]. done.
  - rewrite He. split; [split; [done | by intros (? & ? & [=] & _)]|]. done.
Qed.

Lemma engine_init_then_process_witness :
  (Engine.process
     (Engine.init Engine.constructor
        (Some (mkImage 1 1 [0; 0; 0; 255])) (Some (mkImage 1 1 [0; 0; 0; 255]))).1
     (Sample.canvas 80 80 200) None 1).2 = Return tt.
Proof.
  apply (engine_init_then_process Engine.constructor
           (Some (mkImage 1 1 [0; 0; 0; 255])) (Some (mkImage 1 1 [0; 0; 0; 255]))).
  - reflexivity.
  - reflexivity.
Defined.

(** X12.  [WatermarkProcessor.init] awaits the two loads in turn.  The
    processor is ready exactly when both succeed.  When the first load
    fails nothing is loaded, even if the second image is available, and
    every call returns the image as it is; when only the second fails the
    small map is kept and only images that select the large one come back
    unchanged. *)
Theorem processor_init_then_process :
  (forall img48 img96,
     Processor.isReady (Processor.init Processor.constructor img48 img96) = true
     <-> exists a b, img48 = Some a /\ img96 = Some b) /\
  (forall img96 img mode logoValue,
     Processor.process (Processor.init Processor.constructor None img96)
       img mode logoValue = Return img) /\
  (forall i48 img logoValue,
     1024 < width img -> 1024 < height img ->
     Processor.alphaMap48 (Processor.init Processor.constructor (Some i48) None)
     = Some (calculateAlphaMap i48) /\
     Processor.process (Processor.init Processor.constructor (Some i48) None)
       img "auto" logoValue = Return img).
Proof.
  split; [|split].
  - intros [a|] [b|]; cbn; split; eauto; try done;
      by intros (? & ? & ? & ?).
  - intros img96 img mode lv. cbn [Processor.init].
    unfold Processor.process. by destruct (_ =? _).
  - intros i48 img lv Hw Hh. split; [done|].
    unfold Processor.process, Processor.getWatermarkConfig.
    change (String.eqb "auto" "48") with false. change (String.eqb "auto" "96") with false.
    cbv iota.
    destruct (Z.gtb_spec (width img) 1024); [|lia].
    destruct (Z.gtb_spec (height img) 1024); [|lia]. done.
Qed.

Lemma processor_init_then_process_witness :
  Processor.process
    (Processor.init Processor.constructor (Some (mkImage 1 1 [0; 0; 0; 255])) None)
    (mkImageData 2000 2000 (mkU8 [] [])) "auto" 255
  = Return (mkImageData 2000 2000 (mkU8 [] [])).
Proof.
  apply (proj2 (proj2 processor_init_then_process) (mkImage 1 1 [0; 0; 0; 255])
           (mkImageData 2000 2000 (mkU8 [] [])) 255%Q); reflexivity.
Defined.

(** X13.  From the reference bitmap to the restored image.  A pixel of the
    region whose reference pixel has brightest colour channel [m] is left
    unchanged by an engine initialized from that bitmap whenever
    [m * intensity < 0.51] (that is [m / 255 * intensity < 0.002]); for the
    processor, which has no intensity, whenever the reference pixel is
    black. *)
Theorem faint_reference_pixel_is_skipped :
  (forall e small large c forceSize intensity k i r g b x,
     let e' := (Engine.init e (Some small) (Some large)).1 in
     let config := Engine.selectConfig (c_width c) (c_height c) forceSize in
     let reference := if Engine.size config =? 96 then large else small in
     roiEntry (c_width c) (Engine.roiX c config) (Engine.roiY c config)
       (Engine.logo_size config) k = Some i ->
     get (img_data reference) (4 * i) = Some r ->
     get (img_data reference) (4 * i + 1) = Some g ->
     get (img_data reference) (4 * i + 2) = Some b ->
     get (img_data reference) (4 * i + 3) = Some x ->
     (inject_Z (Z.max r (Z.max g b)) * intensity < 51 # 100)%Q ->
     get (c_pixels (Engine.process e' c forceSize intensity).1) k = get (c_pixels c) k) /\
  (forall i48 i96 img mode logoValue j i r g b x,
     let p := Processor.init Processor.constructor (Some i48) (Some i96) in
     let config := Processor.getWatermarkConfig (width img) (height img) mode in
     let reference := if Processor.size config =? 96 then i96 else i48 in
     roiEntry (width img) (Processor.x config) (Processor.y config)
       (Processor.size config) j = Some i ->
     get (img_data reference) (4 * i) = Some r ->
     get (img_data reference) (4 * i + 1) = Some g ->
     get (img_data reference) (4 * i + 2) = Some b ->
     get (img_data reference) (4 * i + 3) = Some x ->
     Z.max r (Z.max g b) <= 0 ->
     exists img',
       Processor.process p img mode logoValue = Return img' /\
       get (elems (data img')) j = get (elems (data img)) j).
Proof.
  split.
  - intros e small large c fs intensity k i r g b x e' config reference
      Hroi Hr Hg Hb Hx Hfaint.
    destruct (Engine_process_cases e' c fs intensity k)
      as [E | (am & i' & a & w & _ & _ & _ & Ham & Hroi' & _ & Ha & Hw & E)];
      [done|].
    fold config in Ham, Hroi'. rewrite Hroi in Hroi'. injection Hroi' as <-.
    assert (Hmap : am = calculateAlphaMap reference).
    { unfold Engine.alphaMapFor in Ham. subst e' reference.
      cbn [Engine.init fst Engine.alphaMaps_small Engine.alphaMaps_large] in Ham.
      destruct (Engine.size config =? 96); congruence. }
    subst am. cbn [calculateAlphaMap am_data] in Ha.
    rewrite (alphaOfPixels_get _ i r g b x Hr Hg Hb Hx) in Ha. injection Ha as <-.
    rewrite E, Hw. f_equal. apply Engine_channelOut_skip.
    unfold ALPHA_THRESHOLD.
    set (m := inject_Z (Z.max r (Z.max g b))) in *.
    assert (Hdiv : (m / 255 * intensity == m * intensity / 255)%Q) by field.
    rewrite Hdiv. apply Qlt_shift_div_r; lra.
  - intros i48 i96 img mode lv j i r g b x p config reference Hroi Hr Hg Hb Hx Hblack.
    destruct (Processor_process_cases p img mode lv j)
      as (img' & Hret & _ & _ & _ & [E | (am & i' & w & Ham & Hroi' & _ & Hw & E)]);
      exists img'; (split; [done|]); [done|].
    fold config in Ham, Hroi'. rewrite Hroi in Hroi'. injection Hroi' as <-.
    assert (Hmap : am = calculateAlphaMap reference).
    { unfold Processor.alphaMapFor in Ham. subst p reference.
      cbn [Processor.init Processor.alphaMap48 Processor.alphaMap96] in Ham.
      destruct (Processor.size config =? 96); congruence. }
    subst am. cbn [calculateAlphaMap am_data] in E.
    rewrite (alphaOfPixels_get _ i r g b x Hr Hg Hb Hx) in E.
    rewrite E, Hw. f_equal. apply Processor_channelOut_skip.
    unfold ALPHA_THRESHOLD.
    rewrite Zle_Qle in Hblack. change (inject_Z 0) with 0%Q in Hblack.
    apply Qlt_shift_div_r; lra.
Qed.

Lemma faint_reference_pixel_is_skipped_witness :
  get (c_pixels
         (Engine.process
            (Engine.init Engine.constructor
               (Some (mkImage 1 1 [1; 0; 1; 255])) (Some (mkImage 1 1 [0; 0; 0; 255]))).1
            (Sample.canvas 80 80 200) None (1 # 2)).1) 0
  = get (c_pixels (Sample.canvas 80 80 200)) 0 /\
  exists img',
    Processor.process
      (Processor.init Processor.constructor
         (Some (mkImage 1 1 [0; 0; 0; 255])) (Some (mkImage 1 1 [0; 0; 0; 255])))
      (Sample.image 80 80 200) "auto" 255
    = Return img' /\
    get (elems (data img')) 0 = get (elems (data (Sample.image 80 80 200))) 0.
Proof.
  destruct faint_reference_pixel_is_skipped as [He Hp]. split.
  - apply (He Engine.constructor (mkImage 1 1 [1; 0; 1; 255]) (mkImage 1 1 [0; 0; 0; 255])
             (Sample.canvas 80 80 200) None (1 # 2)%Q 0 0 1 0 1 255).
    + reflexivity.
    + reflexivity.
    + reflexivity.
    + reflexivity.
    + reflexivity.
    + reflexivity.
  - apply (Hp (mkImage 1 1 [0; 0; 0; 255]) (mkImage 1 1 [0; 0; 0; 255])
             (Sample.image 80 80 200) "auto"%string 255%Q 0 0 0 0 0 255).
    + reflexivity.
    + reflexivity.
    + reflexivity.
    + reflexivity.
    + reflexivity.
    + vm_compute. discriminate.
Defined.

(** ** Order *)

Lemma Qle_bool_false (x y : Q) : (y < x)%Q -> Qle_bool x y = false.
Proof.
  intros H. apply not_true_iff_false. rewrite Qle_bool_iff. lra.
Qed.

Lemma ToUint8Clamp_low (x : Q) : (x <= 0)%Q -> ToUint8Clamp (Some x) = 0.
Proof. intros H. unfold ToUint8Clamp. by rewrite (proj2 (Qle_bool_iff x 0) H). Qed.

Lemma ToUint8Clamp_high (x : Q) : (255 <= x)%Q -> ToUint8Clamp (Some x) = 255.
Proof.
  intros H. unfold ToUint8Clamp.
  destruct (Qle_bool x 0) eqn:E0; [apply Qle_bool_iff in E0; lra|].
  by rewrite (proj2 (Qle_bool_iff 255 x) H).
Qed.

Lemma ToUint8Clamp_mono (x y : Q) :
  (x <= y)%Q -> ToUint8Clamp (Some x) <= ToUint8Clamp (Some y).
Proof.
  intros Hxy.
  pose proof (ToUint8Clamp_range (Some x)) as Rx.
  pose proof (ToUint8Clamp_range (Some y)) as Ry.
  destruct (Qlt_le_dec 0 x) as [Hx0|Hx0]; [|rewrite ToUint8Clamp_low by done; lia].
  destruct (Qlt_le_dec y 255) as [Hy1|Hy1];
    [|rewrite (ToUint8Clamp_high y) by done; lia].
  clear Rx Ry. unfold ToUint8Clamp.
  rewrite (Qle_bool_false x 0) by lra.
  rewrite (Qle_bool_false y 0) by lra.
  rewrite (Qle_bool_false 255 x) by lra.
  rewrite (Qle_bool_false 255 y) by lra.
  cbv zeta.
  pose proof (Qfloor_resp_le x y Hxy) as Hff.
  pose proof (Qfloor_le x) as Hfx. pose proof (Qlt_floor x) as Hcx.
  pose proof (Qfloor_le y) as Hfy. pose proof (Qlt_floor y) as Hcy.
  rewrite inject_Z_plus in Hcx, Hcy. change (inject_Z 1) with 1%Q in Hcx, Hcy.
  destruct (Z.eq_dec (Qfloor x) (Qfloor y)) as [Heq|Hne].
  - rewrite <- Heq in *. clear Heq Hff.
    set (f := Qfloor x) in *.
    destruct (lt (inject_Z f + (1 # 2)) x) eqn:L1;
      destruct (lt (inject_Z f + (1 # 2)) y) eqn:L2;
      destruct (lt x (inject_Z f + (1 # 2))) eqn:L3;
      destruct (lt y (inject_Z f + (1 # 2))) eqn:L4;
      destruct (Z.even f); try lia;
      rewrite ?lt_spec, ?lt_false in *; exfalso; lra.
  - assert (Hlt : Qfloor x + 1 <= Qfloor y) by lia.
    repeat match goal with |- context [if ?c then _ else _] => destruct c end; lia.
Qed.

Lemma Math_min_mono (c x y : Q) : (x <= y -> Math_min c x <= Math_min c y)%Q.
Proof.
  intros H. destruct (Math_min_spec c x) as [[? ->]|[? ->]];
    destruct (Math_min_spec c y) as [[? ->]|[? ->]]; lra.
Qed.

Lemma Math_max_mono (c x y : Q) : (x <= y -> Math_max c x <= Math_max c y)%Q.
Proof.
  intros H. destruct (Math_max_spec c x) as [[? ->]|[? ->]];
    destruct (Math_max_spec c y) as [[? ->]|[? ->]]; lra.
Qed.

Lemma clamp255_mono (x y : Q) : (x <= y -> clamp255 x <= clamp255 y)%Q.
Proof. intros H. unfold clamp255. by apply Math_max_mono, Math_min_mono. Qed.

Lemma unblend_mono (w1 w2 : Z) (alpha logo : Q) :
  w1 <= w2 -> (alpha < 1)%Q -> (unblend w1 alpha logo <= unblend w2 alpha logo)%Q.
Proof.
  intros Hw Ha. unfold unblend, Qdiv.
  rewrite Zle_Qle in Hw.
  apply Qmult_le_compat_r; [lra|].
  apply Qlt_le_weak, Qinv_lt_0_compat. lra.
Qed.

Lemma Engine_channelOut_mono intensity lv a w1 w2 :
  w1 <= w2 ->
  Engine.channelOut intensity lv a w1 <= Engine.channelOut intensity lv a w2.
Proof.
  intros Hw. unfold Engine.channelOut.
  destruct (lt _ _) eqn:Hlt; [done|].
  pose proof (effectiveAlpha_le a intensity). unfold MAX_ALPHA in *.
  apply ToUint8Clamp_mono, clamp255_mono, unblend_mono; [done | lra].
Qed.

Lemma Processor_channelOut_mono lv alpha w1 w2 :
  w1 <= w2 ->
  Processor.channelOut lv alpha w1 <= Processor.channelOut lv alpha w2.
Proof.
  intros Hw. unfold Processor.channelOut.
  destruct alpha as [a|]; [|done].
  destruct (lt a ALPHA_THRESHOLD); [done|].
  pose proof (safeAlpha_le a). unfold MAX_ALPHA in *.
  apply ToUint8Clamp_mono, clamp255_mono. rewrite <- Zle_Qle.
  apply Qfloor_resp_le.
  pose proof (unblend_mono w1 w2 (Processor.safeAlpha a) lv Hw ltac:(lra)) as Hu.
  unfold unblend in Hu. lra.
Qed.

(** A call acts on the bitmap entry by entry, through functions that depend
    on the dimensions of the image but not on its content, and that are
    monotone. *)
Lemma Engine_process_pointwise e W H forceSize intensity :
  exists F : Z -> Z -> Z,
    (forall k w1 w2, w1 <= w2 -> F k w1 <= F k w2) /\
    forall c, c_width c = W -> c_height c = H ->
      forall k, get (c_pixels (Engine.process e c forceSize intensity).1) k
                = F k <$> get (c_pixels c) k.
Proof.
  set (config := Engine.selectConfig W H forceSize).
  set (x0 := W - Engine.margin_right config - Engine.logo_size config).
  set (y0 := H - Engine.margin_bottom config - Engine.logo_size config).
  assert (Hid : forall o : option Z, o = (fun w : Z => w) <$> o) by (by intros []).
  destruct (Engine.ready e) eqn:Hr.
  2:{ exists (fun _ w => w). split; [done|]. intros c _ _ k.
      unfold Engine.process. rewrite Hr. apply Hid. }
  destruct (Z.ltb_spec x0 0) as [Hx|Hx].
  { exists (fun _ w => w). split; [done|]. intros c <- <- k.
    rewrite Engine_process_negative_roi by (done || by left). apply Hid. }
  destruct (Z.ltb_spec y0 0) as [Hy|Hy].
  { exists (fun _ w => w). split; [done|]. intros c <- <- k.
    rewrite Engine_process_negative_roi by (done || by right). apply Hid. }
  destruct (if Engine.size config =? 96 then Engine.alphaMaps_large e
            else Engine.alphaMaps_small e) as [am|] eqn:Ham.
  2:{ exists (fun _ w => w). split; [done|]. intros c <- <- k.
      rewrite Engine_process_no_map by done. apply Hid. }
  exists (fun k w =>
            match roiEntry W x0 y0 (Engine.logo_size config) k with
            | Some i =>
                if k mod 4 <? 3 then
                  match get (am_data am) i with
                  | Some a => Engine.channelOut intensity (Engine.logoValue e) a w
                  | None => w
                  end
                else w
            | None => w
            end).
  split.
  - intros k w1 w2 Hw. destruct (roiEntry _ _ _ _ _); [|done].
    destruct (_ <? _); [|done]. destruct (get _ _); [|done].
    by apply Engine_channelOut_mono.
  - intros c <- <- k.
    rewrite (Engine_process_get e c forceSize intensity am k Hr Ham Hx Hy).
    fold config. change (Engine.roiX c config) with x0. change (Engine.roiY c config) with y0.
    destruct (roiEntry _ _ _ _ _); [|apply Hid].
    destruct (_ <? _); [|apply Hid]. destruct (get (am_data am) _); [done | apply Hid].
Qed.

Lemma Processor_process_pointwise p W H mode lv :
  exists F : Z -> Z -> Z,
    (forall j w1 w2, w1 <= w2 -> F j w1 <= F j w2) /\
    forall img, width img = W -> height img = H ->
      exists img',
        Processor.process p img mode lv = Return img' /\
        forall j, get (elems (data img')) j = F j <$> get (elems (data img)) j.
Proof.
  set (config := Processor.getWatermarkConfig W H mode).
  assert (Hid : forall o : option Z, o = (fun w : Z => w) <$> o) by (by intros []).
  destruct (Processor.alphaMapFor p config) as [am|] eqn:Ham.
  2:{ exists (fun _ w => w). split; [done|]. intros img <- <-. exists img.
      split; [|intros; apply Hid].
      unfold Processor.process. fold config.
      unfold Processor.alphaMapFor in Ham. by rewrite Ham. }
  exists (fun j w =>
            match roiEntry W (Processor.x config) (Processor.y config)
                    (Processor.size config) j with
            | Some i =>
                if (0 <? W) && (0 <=? j / 4 / W) && (j / 4 / W <? H) && (j mod 4 <? 3)
                then Processor.channelOut lv (get (am_data am) i) w
                else w
            | None => w
            end).
  split.
  - intros j w1 w2 Hw. destruct (roiEntry _ _ _ _ _); [|done].
    destruct (_ && _); [|done]. by apply Processor_channelOut_mono.
  - intros img <- <-. eexists. split; [by apply Processor_process_unfold|].
    intros j. cbn [data]. fold config. rewrite Processor_loop_get_roi.
    destruct (roiEntry _ _ _ _ _); [|apply Hid].
    destruct (_ && _); [done | apply Hid].
Qed.

(** X14.  Restoration preserves the order of brightness.  Of two images of
    the same dimensions, restored by the same call, the one that is nowhere
    brighter before is nowhere brighter after. *)
Theorem restoration_preserves_order :
  (forall e c1 c2 forceSize intensity,
     c_width c1 = c_width c2 -> c_height c1 = c_height c2 ->
     (forall k w1 w2,
        get (c_pixels c1) k = Some w1 -> get (c_pixels c2) k = Some w2 -> w1 <= w2) ->
     forall k v1 v2,
       get (c_pixels (Engine.process e c1 forceSize intensity).1) k = Some v1 ->
       get (c_pixels (Engine.process e c2 forceSize intensity).1) k = Some v2 ->
       v1 <= v2) /\
  (forall p img1 img2 mode logoValue,
     width img1 = width img2 -> height img1 = height img2 ->
     (forall j w1 w2,
        get (elems (data img1)) j = Some w1 -> get (elems (data img2)) j = Some w2 ->
        w1 <= w2) ->
     exists img1' img2',
       Processor.process p img1 mode logoValue = Return img1' /\
       Processor.process p img2 mode logoValue = Return img2' /\
       forall j v1 v2,
         get (elems (data img1')) j = Some v1 ->
         get (elems (data img2')) j = Some v2 ->
         v1 <= v2).
Proof.
  split.
  - intros e c1 c2 fs intensity HW HH Hle k v1 v2.
    destruct (Engine_process_pointwise e (c_width c1) (c_height c1) fs intensity)
      as (F & Hmono & HF).
    rewrite (HF c1 eq_refl eq_refl), (HF c2) by done.
    destruct (get (c_pixels c1) k) as [w1|] eqn:H1; [|done].
    destruct (get (c_pixels c2) k) as [w2|] eqn:H2; [|done].
    intros [= <-] [= <-]. apply Hmono. by apply (Hle k).
  - intros p img1 img2 mode lv HW HH Hle.
    destruct (Processor_process_pointwise p (width img1) (height img1) mode lv)
      as (F & Hmono & HF).
    destruct (HF img1 eq_refl eq_refl) as (img1' & Hret1 & H1).
    destruct (HF img2) as (img2' & Hret2 & H2); [done | done |].
    exists img1', img2'. split; [done|]. split; [done|].
    intros j v1 v2. rewrite H1, H2.
    destruct (get (elems (data img1)) j) as [w1|] eqn:E1; [|done].
    destruct (get (elems (data img2)) j) as [w2|] eqn:E2; [|done].
    intros [= <-] [= <-]. apply Hmono. by apply (Hle j).
Qed.

Lemma get_repeat (v w : Z) (n : nat) (k : Z) : get (repeat v n) k = Some w -> w = v.
Proof.
  unfold get. destruct (k <? 0); [done|].
  intros H. apply list_elem_of_lookup_2, list_elem_of_In, repeat_spec in H. done.
Qed.

Lemma restoration_preserves_order_witness :
  get (c_pixels (Engine.process (Sample.engine (1 # 2)) (Sample.canvas 80 80 200)
                   None 1).1) 0 = Some 145 /\
  get (c_pixels (Engine.process (Sample.engine (1 # 2)) (Sample.canvas 80 80 201)
                   None 1).1) 0 = Some 147 /\
  145 <= 147.
Proof.
  assert (H1 : get (c_pixels (Engine.process (Sample.engine (1 # 2))
                                (Sample.canvas 80 80 200) None 1).1) 0 = Some 145).
  { rewrite (Engine_process_get_colour (Sample.engine (1 # 2)) (Sample.canvas 80 80 200)
               None 1 (Sample.alpha48 (1 # 2)) 0 0 (1 # 2) 200);
      first [ vm_compute; reflexivity | vm_compute; discriminate ]. }
  assert (H2 : get (c_pixels (Engine.process (Sample.engine (1 # 2))
                                (Sample.canvas 80 80 201) None 1).1) 0 = Some 147).
  { rewrite (Engine_process_get_colour (Sample.engine (1 # 2)) (Sample.canvas 80 80 201)
               None 1 (Sample.alpha48 (1 # 2)) 0 0 (1 # 2) 201);
      first [ vm_compute; reflexivity | vm_compute; discriminate ]. }
  split; [exact H1|]. split; [exact H2|].
  apply (proj1 restoration_preserves_order (Sample.engine (1 # 2))
           (Sample.canvas 80 80 200) (Sample.canvas 80 80 201) None 1%Q
           eq_refl eq_refl) with (k := 0); [|exact H1|exact H2].
  intros k w1 w2 Hw1 Hw2.
  apply get_repeat in Hw1, Hw2. lia.
Defined.

(** ** File names *)

Lemma isExtension_dotless (s : string) :
  FileName.isExtension s = true -> FileName.dotless s = true.
Proof.
  induction s as [|c rest IH]; [done|]. cbn [FileName.isExtension FileName.dotless].
  unfold FileName.plain. destruct rest as [|c' rest'].
  - intros H. apply andb_prop in H as [_ ->]. done.
  - intros H. apply andb_prop in H as [H1 H2]. apply andb_prop in H1 as [_ ->].
    by rewrite IH.
Qed.

Lemma isExtension_with_dot (a b : string) :
  FileName.isExtension (String.append a (String "." b)) = false.
Proof.
  apply not_true_iff_false. intros H%isExtension_dotless. revert H.
  induction a as [|c a IH]; cbn [String.append FileName.dotless].
  - done.
  - intros H. apply andb_prop in H as [_ H]. by apply IH.
Qed.

Lemma stripExtension_append (base ext : string) :
  FileName.isExtension ext = true ->
  FileName.stripExtension (String.append base (String "." ext)) = base.
Proof.
  intros Hext. induction base as [|c base IH]; cbn [String.append FileName.stripExtension].
  - by rewrite Hext.
  - rewrite isExtension_with_dot, andb_false_r. by rewrite IH.
Qed.

Lemma stripExtension_dotless (name : string) :
  FileName.dotless name = true -> FileName.stripExtension name = name.
Proof.
  induction name as [|c rest IH]; [done|]. cbn [FileName.dotless FileName.stripExtension].
  intros H. apply andb_prop in H as [Hc Hrest].
  apply negb_true_iff in Hc. rewrite Hc. cbn [andb]. by rewrite IH.
Qed.

Lemma beforeFirstDot_append (base rest : string) :
  FileName.dotless base = true ->
  FileName.beforeFirstDot (String.append base (String "." rest)) = base.
Proof.
  induction base as [|c base IH]; cbn [String.append FileName.beforeFirstDot FileName.dotless].
  - done.
  - intros H. apply andb_prop in H as [Hc Hrest].
    apply negb_true_iff in Hc. rewrite Hc. by rewrite IH.
Qed.

Lemma beforeFirstDot_dotless (name : string) :
  FileName.dotless name = true -> FileName.beforeFirstDot name = name.
Proof.
  induction name as [|c rest IH]; [done|]. cbn [FileName.dotless FileName.beforeFirstDot].
  intros H. apply andb_prop in H as [Hc Hrest].
  apply negb_true_iff in Hc. rewrite Hc. by rewrite IH.
Qed.

Lemma beforeFirstDot_is_dotless (name : string) :
  FileName.dotless (FileName.beforeFirstDot name) = true.
Proof.
  induction name as [|c rest IH]; [done|]. cbn [FileName.beforeFirstDot].
  destruct (Ascii.eqb c ".") eqn:E; [done|]. cbn [FileName.dotless]. by rewrite E, IH.
Qed.

(** X15.  The name the React application offers for a restored image: the
    last extension of the file name is replaced by [.png], whatever
    precedes it (other dots included); a name without a dot only gets the
    prefix and [.png]. *)
Theorem save_name_replaces_last_extension :
  (forall base ext,
     FileName.isExtension ext = true ->
     FileName.saveName (String.append base (String "." ext))
     = String.append "processed_" (String.append base ".png")) /\
  (forall name,
     FileName.dotless name = true ->
     FileName.saveName name = String.append "processed_" (String.append name ".png")).
Proof.
  split.
  - intros base ext Hext. unfold FileName.saveName. by rewrite stripExtension_append.
  - intros name Hname. unfold FileName.saveName. by rewrite stripExtension_dotless.
Qed.

Lemma save_name_replaces_last_extension_witness :
  FileName.saveName "photo.v2.jpeg" = "processed_photo.v2.png"%string.
Proof.
  apply (proj1 save_name_replaces_last_extension "photo.v2"%string "jpeg"%string).
  reflexivity.
Defined.

(** X16.  The name the stand-alone front end gives to a download keeps only
    what precedes the first dot of the file name: everything after it is
    dropped, so the stem never contains a dot, and two files that differ
    only after their first dot get the same name. *)
Theorem download_name_keeps_first_stem :
  (forall base rest,
     FileName.dotless base = true ->
     FileName.downloadName (String.append base (String "." rest))
     = String.append "processed_" (String.append base ".png")) /\
  (forall name,
     FileName.dotless name = true ->
     FileName.downloadName name = String.append "processed_" (String.append name ".png")) /\
  (forall name, FileName.dotless (FileName.beforeFirstDot name) = true) /\
  (forall base rest1 rest2,
     FileName.dotless base = true ->
     FileName.downloadName (String.append base (String "." rest1))
     = FileName.downloadName (String.append base (String "." rest2))).
Proof.
  split; [|split; [|split]].
  - intros base rest Hb. unfold FileName.downloadName. by rewrite beforeFirstDot_append.
  - intros name Hn. unfold FileName.downloadName. by rewrite beforeFirstDot_dotless.
  - apply beforeFirstDot_is_dotless.
  - intros base rest1 rest2 Hb. unfold FileName.downloadName.
    by rewrite !beforeFirstDot_append.
Qed.

Lemma download_name_keeps_first_stem_witness :
  FileName.downloadName "photo.v2.jpeg" = "processed_photo.png"%string.
Proof.
  apply (proj1 download_name_keeps_first_stem "photo"%string "v2.jpeg"%string).
  reflexivity.
Defined.

(** The formula inverts the blend exactly. *)
Lemma unblend_blend (w o : Z) (a al : Q) :
  (al == a)%Q -> (a < 1)%Q ->
  (inject_Z w == inject_Z o * (1 - a) + a * 255)%Q ->
  (unblend w al 255 == inject_Z o)%Q.
Proof.
  intros Hal Ha Hw. unfold unblend. rewrite Hw, Hal. field. lra.
Qed.

Lemma nearest_clamped_integer (v o : Z) (x : Q) :
  0 <= o <= 255 -> (x == inject_Z o)%Q -> nearest v (clamp255 x) -> v = o.
Proof.
  intros [Ho0 Ho1] Hx Hn. apply (nearest_eq _ _ _ Hn).
  rewrite Zle_Qle in Ho0, Ho1.
  change (inject_Z 0) with 0%Q in Ho0. change (inject_Z 255) with 255%Q in Ho1.
  rewrite clamp255_id; lra.
Qed.

Lemma Engine_channelOut_exact (o w : Z) (a : Q) :
  0 <= o <= 255 -> (2 # 1000 <= a)%Q -> (a <= 99 # 100)%Q ->
  (inject_Z w == inject_Z o * (1 - a) + a * 255)%Q ->
  Engine.channelOut 1 255 a w = o.
Proof.
  intros Ho Ha0 Ha1 Hw.
  assert (Heff : (Engine.effectiveAlpha a 1 == a)%Q).
  { unfold Engine.effectiveAlpha.
    destruct (Math_min_spec (a * 1) MAX_ALPHA) as [[? ->]|[? ->]];
      unfold MAX_ALPHA in *; lra. }
  destruct (Engine_channelOut_cases 1 a w) as [[Hlt _] | [_ Hn]]; [lra|].
  apply (nearest_clamped_integer _ o _ Ho) in Hn; [done|].
  apply (unblend_blend w o a); [done | lra | done].
Qed.

Lemma Processor_channelOut_exact (o w : Z) (a : Q) :
  0 <= o <= 255 -> (2 # 1000 <= a)%Q -> (a <= 99 # 100)%Q ->
  (inject_Z w == inject_Z o * (1 - a) + a * 255)%Q ->
  Processor.channelOut 255 (Some a) w = o.
Proof.
  intros Ho Ha0 Ha1 Hw.
  assert (Hsafe : (Processor.safeAlpha a == a)%Q).
  { unfold Processor.safeAlpha.
    destruct (Math_min_spec a MAX_ALPHA) as [[? ->]|[? ->]];
      unfold MAX_ALPHA in *; lra. }
  destruct (Processor_channelOut_cases (Some a) w)
    as [[[=] _] | [(a' & [= <-] & Hlt & _) | (a' & [= <-] & _ & _ & Hn)]]; [lra|].
  apply (nearest_clamped_integer _ o _ Ho) in Hn; [done|].
  apply (unblend_blend w o a); [done | lra | done].
Qed.

(** X17.  The restoration is the exact inverse of an exact blend: when the
    value of a colour channel of a pixel of the region inside the image is
    exactly [original * (1 - alpha) + alpha * 255] for an [original] of
    [0, 255] and an alpha-map entry [alpha] in [0.002, 0.99], the call at
    intensity 1 stores [original] itself.  For WatermarkEngine this needs a
    ready engine, logo value 255, the alpha map of the placement loaded and
    an origin of the region that is not negative in either axis (a smaller
    image is left as it is).  For WatermarkProcessor it needs a well-formed
    image and the alpha map of the placement loaded. *)
Theorem exact_composite_is_inverted :
  (forall e c forceSize am k i a w original,
     let config := Engine.selectConfig (c_width c) (c_height c) forceSize in
     Engine.ready e = true ->
     Engine.logoValue e = 255%Q ->
     Engine.alphaMapFor e config = Some am ->
     0 <= Engine.roiX c config -> 0 <= Engine.roiY c config ->
     roiEntry (c_width c) (Engine.roiX c config) (Engine.roiY c config)
       (Engine.logo_size config) k = Some i ->
     k mod 4 < 3 ->
     get (am_data am) i = Some a ->
     (2 # 1000 <= a)%Q -> (a <= 99 # 100)%Q ->
     0 <= original <= 255 ->
     get (c_pixels c) k = Some w ->
     (inject_Z w == inject_Z original * (1 - a) + a * 255)%Q ->
     get (c_pixels (Engine.process e c forceSize 1).1) k = Some original) /\
  (forall p img mode am j i a w original,
     let config := Processor.getWatermarkConfig (width img) (height img) mode in
     Processor.wellFormed img ->
     Processor.alphaMapFor p config = Some am ->
     roiEntry (width img) (Processor.x config) (Processor.y config)
       (Processor.size config) j = Some i ->
     j mod 4 < 3 ->
     get (am_data am) i = Some a ->
     (2 # 1000 <= a)%Q -> (a <= 99 # 100)%Q ->
     0 <= original <= 255 ->
     get (elems (data img)) j = Some w ->
     (inject_Z w == inject_Z original * (1 - a) + a * 255)%Q ->
     exists img',
       Processor.process p img mode 255 = Return img' /\
       get (elems (data img')) j = Some original).
Proof.
  split.
  - intros e c fs am k i a w o config Hr Hlv Ham Hx Hy Hroi Hch Ha Ha0 Ha1 Ho Hk Hw.
    rewrite (Engine_process_get_colour e c fs 1 am k i a w) by done.
    by rewrite Hlv, (Engine_channelOut_exact o w a).
  - intros p img mode am j i a w o config Hwf Ham Hroi Hch Ha Ha0 Ha1 Ho Hj Hw.
    destruct (Processor_process_get p img mode 255 am j i w Hwf Ham Hroi Hch Hj)
      as (img' & Hret & Hget).
    exists img'. split; [done|].
    by rewrite Hget, Ha, (Processor_channelOut_exact o w a).
Qed.

Lemma exact_composite_is_inverted_witness :
  get (c_pixels (Engine.process (Sample.engine (1 # 2)) (Sample.canvas 80 80 178)
                   None 1).1) 0 = Some 101 /\
  exists img',
    Processor.process (Sample.processor (1 # 2)) (Sample.image 33 33 178) "auto" 255
    = Return img' /\
    get (elems (data img')) 0 = Some 101.
Proof.
  destruct exact_composite_is_inverted as [He Hp]. split.
  - apply (He (Sample.engine (1 # 2)) (Sample.canvas 80 80 178) None
             (Sample.alpha48 (1 # 2)) 0 0 (1 # 2)%Q 178 101).
    + reflexivity.
    + reflexivity.
    + reflexivity.
    + vm_compute. discriminate.
    + vm_compute. discriminate.
    + reflexivity.
    + reflexivity.
    + reflexivity.
    + vm_compute. discriminate.
    + vm_compute. discriminate.
    + lia.
    + vm_compute. reflexivity.
    + reflexivity.
  - apply (Hp (Sample.processor (1 # 2)) (Sample.image 33 33 178) "auto"%string
             (Sample.alpha48 (1 # 2)) 0 2303 (1 # 2)%Q 178 101).
    + vm_compute. repeat split; discriminate.
    + reflexivity.
    + reflexivity.
    + reflexivity.
    + vm_compute. reflexivity.
    + vm_compute. discriminate.
    + vm_compute. discriminate.
    + lia.
    + vm_compute. reflexivity.
    + reflexivity.
Defined.
